(** * cache-engine: the LRU/TTL cache and its persistence

    A shallow embedding of [internal/cache/cache.go] and of [SaveToLog],
    [LoadFromLog] and [LoadSnapshot] from
    [internal/persistence/persistence.go], with the properties of the
    engine and of its persistence stated and proved over it.

    The engine is a Go struct holding a [map[string]*CacheEntry]; its
    methods mutate it under a mutex, read the wall clock and, in
    [evictLRU], [cleanExpired] and [ExportData], iterate over the map in
    Go's unspecified order.  The embedding keeps these effects explicit:

    - the table is a [gmap string CacheEntry]; every method is a state
      transformer in the monad [M] over a [World]; a write through an
      entry pointer is a store under the entry's key, each key of the
      table owning its entry;
    - every call of [time.Now()] consumes the next reading of an oracle
      [clock] carried by the world (nanoseconds since the epoch), so the
      two readings of one [Get] are two readings;
    - every [range] over a map consumes the next seed of an oracle
      [seeds], which selects one permutation of the map's entries, and
      every permutation is the choice of some seed;
    - a log file is the sequence of results that [json.Decoder.Decode]
      returns on it, an error being known by its text, as the replay loop
      inspects it;
    - what the operating system and [encoding/json] answer to [SaveToLog]
      and [LoadSnapshot] is given by a [Host]: the outcome of opening and
      of writing a log, of reading and of decoding a snapshot.  Nothing is
      taken for granted about them; what a statement needs of the host is
      among its hypotheses.

    The mutex makes each method atomic, so a method is one transformer; the
    background goroutine [periodicCleanup] is not part of the sequential
    model (its body [cleanExpired] is), nor is [Close], which only closes
    the channel that stops it.  [Snapshot] is left out: the files of the
    world are logs, and the world has no place for the file it writes.
    Go's [int] is taken to be 64 bits wide. *)

From Stdlib Require Import ZArith Lia.
From stdpp Require Import gmap strings list fin_maps.

Local Open Scope string_scope.
Local Open Scope Z_scope.

(** ** Machine integers *)

Definition min_int64 : Z := - 2 ^ 63.
Definition max_int64 : Z := 2 ^ 63 - 1.

(** Two's-complement wrap-around of Go's [int64] arithmetic. *)
Definition wrap64 (z : Z) : Z := (z + 2 ^ 63) mod 2 ^ 64 - 2 ^ 63.

Definition is_int64 (z : Z) : Prop := min_int64 ≤ z ∧ z ≤ max_int64.

(** ** Data model *)

(** Go's [interface{}] payload: opaque to the engine. *)
Inductive any : Type :=
  | Nil
  | Str (s : string)
  | Int (z : Z)
  | Bool (b : bool).

(** [type CacheEntry struct]; [ExpiresAt = 0] encodes "no expiration". *)
Record CacheEntry : Type := mkEntry {
  Value : any;
  ExpiresAt : Z;
  LastAccess : Z
}.

(** [type CacheEngine struct], without the mutex and the stop channel. *)
Record CacheEngine : Type := mkEngine {
  data : gmap string CacheEntry;
  maxEntries : Z;
  logFile : string
}.

(** [type LogEntry struct] of the persistence package. *)
Record LogEntry : Type := mkLogEntry {
  Operation : string;
  Key : string;
  LogValue : any;
  LogExpiresAt : Z;
  Timestamp : Z
}.

(** What successive calls of [decoder.Decode(&logEntry)] produce on a file:
    a decoded record, or an error, seen by the caller only through its
    [Error()] text.  Once the list is used up the decoder is at a clean end
    of input and returns [io.EOF]. *)
Inductive Decoded : Type :=
  | Rec (e : LogEntry)
  | DecodeErr (msg : string).

(** [io.EOF] and [io.ErrUnexpectedEOF]: the texts of Go's two end-of-input
    errors.  [encoding/json]'s decoder returns the first when only white
    space is left, and the second when the input ends inside a value. *)
Definition io_EOF : string := "EOF".
Definition io_ErrUnexpectedEOF : string := "unexpected EOF".

(** A path on disk, as [os.Stat] and [os.Open] see it: absent from [fs]
    means "does not exist". *)
Inductive File : Type :=
  | Unreadable (err : string)
  | Readable (contents : list Decoded).

Record World : Type := mkWorld {
  cache : CacheEngine;
  fs : gmap string File;
  clock : nat → Z;
  reads : nat;
  seeds : nat → list nat;
  ranges : nat
}.

(** ** The state monad of the methods *)

Definition M (A : Type) : Type := World → A * World.

Definition ret {A} (a : A) : M A := λ w, (a, w).

Definition bind {A B} (m : M A) (k : A → M B) : M B :=
  λ w, let (a, w') := m w in k a w'.

Declare Scope go_scope.
Delimit Scope go_scope with go.
Notation "x <- m ;; k" := (bind m (λ x, k))
  (at level 100, m at next level, k at level 200, right associativity) : go_scope.
Notation "m ;;; k" := (bind m (λ _, k))
  (at level 100, k at level 200, right associativity) : go_scope.
Local Open Scope go_scope.

(** Running a list of calls in sequence. *)
Fixpoint seq_ {A} (ms : list (M A)) : M unit :=
  match ms with
  | [] => ret tt
  | m :: ms' => m ;;; seq_ ms'
  end.

Definition eval {A} (m : M A) (w : World) : A := fst (m w).
Definition exec {A} (m : M A) (w : World) : World := snd (m w).

(** The table of a world, for statements. *)
Definition table (w : World) : gmap string CacheEntry := data (cache w).

Definition with_data (d : gmap string CacheEntry) (w : World) : World :=
  mkWorld (mkEngine d (maxEntries (cache w)) (logFile (cache w)))
          (fs w) (clock w) (reads w) (seeds w) (ranges w).

(** [len(c.data)] *)
Definition len_data : M Z := λ w, (Z.of_nat (size (table w)), w).

(** [c.maxEntries] *)
Definition get_maxEntries : M Z := λ w, (maxEntries (cache w), w).

(** [entry, exists := c.data[key]] *)
Definition load (key : string) : M (option CacheEntry) :=
  λ w, (table w !! key, w).

(** [c.data[key] = entry], and a write through the entry pointer. *)
Definition store (key : string) (entry : CacheEntry) : M unit :=
  λ w, (tt, with_data (<[key := entry]> (table w)) w).

(** [c.data = data] *)
Definition assign_data (d : gmap string CacheEntry) : M unit :=
  λ w, (tt, with_data d w).

(** [delete(c.data, key)] *)
Definition remove (key : string) : M unit :=
  λ w, (tt, with_data (delete key (table w)) w).

(** The reading the next [time.Now()] will return, and the world once it
    has been taken. *)
Definition now (w : World) : Z := clock w (reads w).

Definition tick (w : World) : World :=
  mkWorld (cache w) (fs w) (clock w) (S (reads w)) (seeds w) (ranges w).

(** [time.Now()]: the next reading of the clock, in nanoseconds. *)
Definition time_Now : M Z := λ w, (now w, tick w).

(** [t.UnixNano()] and [t.Unix()] of a reading. *)
Definition UnixNano (t : Z) : Z := t.
Definition Unix (t : Z) : Z := t `div` 1000000000.

(** One order of iteration chosen by a seed: the head of the seed picks
    the next element among those left.  With the empty seed the list is
    walked as it stands. *)
Fixpoint shuffle {A} (seed : list nat) (l : list A) : list A :=
  match seed with
  | [] => l
  | i :: seed' =>
      match l !! (i `mod` length l)%nat with
      | Some x => x :: shuffle seed' (delete (i `mod` length l)%nat l)
      | None => l
      end
  end.

(** The order in which the next [range] walks the table, and the world
    once that loop has run. *)
Definition order (w : World) : list (string * CacheEntry) :=
  shuffle (seeds w (ranges w)) (map_to_list (table w)).

Definition ranged (w : World) : World :=
  mkWorld (cache w) (fs w) (clock w) (reads w) (seeds w) (S (ranges w)).

(** [for key, entry := range c.data]: the entries in the order of this run. *)
Definition range_data : M (list (string * CacheEntry)) := λ w, (order w, ranged w).

(** ** cache.go *)

(** Writes to one field through an entry pointer. *)
Definition with_LastAccess (t : Z) (entry : CacheEntry) : CacheEntry :=
  {| Value := Value entry; ExpiresAt := ExpiresAt entry; LastAccess := t |}.

Definition with_ExpiresAt (t : Z) (entry : CacheEntry) : CacheEntry :=
  {| Value := Value entry; ExpiresAt := t; LastAccess := LastAccess entry |}.

(** [NewCacheEngine]; the goroutine it starts is outside this model. *)
Definition NewCacheEngine (maxEntries : Z) : CacheEngine :=
  mkEngine ∅ (if maxEntries <=? 0 then 1000 else maxEntries) "".

(** The body of the loop of [evictLRU], on the pair
    [(oldestKey, oldestTime)]. *)
Definition older (acc : string * Z) (item : string * CacheEntry) : string * Z :=
  if LastAccess item.2 <? acc.2 then (item.1, LastAccess item.2) else acc.

Definition scan (oldestTime : Z) (items : list (string * CacheEntry)) : string * Z :=
  foldl older ("", oldestTime) items.

Definition evictLRU : M unit :=
  t <- time_Now ;;
  items <- range_data ;;
  let oldestKey := (scan (UnixNano t) items).1 in
  if decide (oldestKey ≠ "") then remove oldestKey else ret tt.

(** [Set]; the name carries an underscore because [Set] is a sort of Rocq.
    The reading of [c.logFile] that ends the method has no effect. *)
Definition Set_ (key : string) (value : any) : M unit :=
  n <- len_data ;;
  max <- get_maxEntries ;;
  (if n >=? max then evictLRU else ret tt) ;;;
  t <- time_Now ;;
  let now := UnixNano t in
  store key {| Value := value; ExpiresAt := 0; LastAccess := now |}.

Definition Get (key : string) : M (any * bool) :=
  r <- load key ;;
  match r with
  | None => ret (Nil, false)
  | Some entry =>
      t <- time_Now ;;
      let now := Unix t in
      if (ExpiresAt entry >? 0) && (ExpiresAt entry <=? now) then
        remove key ;;; ret (Nil, false)
      else
        t' <- time_Now ;;
        store key (with_LastAccess (UnixNano t') entry) ;;;
        ret (Value entry, true)
  end.

Definition Delete (key : string) : M bool :=
  r <- load key ;;
  match r with
  | Some _ => remove key ;;; ret true
  | None => ret false
  end.

Definition Expire (key : string) (seconds : Z) : M bool :=
  r <- load key ;;
  match r with
  | None => ret false
  | Some entry =>
      t <- time_Now ;;
      let expiresAt := wrap64 (Unix t + seconds) in
      store key (with_ExpiresAt expiresAt entry) ;;;
      ret true
  end.

(** The body of the loop of [cleanExpired].  Deleting the entry under the
    cursor while ranging over a Go map is allowed and does not disturb the
    rest of the walk, so the loop runs over the entries as they were when
    it began. *)
Definition sweep (now : Z) (item : string * CacheEntry) : M unit :=
  if (ExpiresAt item.2 >? 0) && (ExpiresAt item.2 <=? now) then remove item.1 else ret tt.

Definition cleanExpired : M unit :=
  t <- time_Now ;;
  let now := Unix t in
  items <- range_data ;;
  seq_ (map (sweep now) items).

Definition Size : M Z := len_data.

Definition MaxEntries : M Z := get_maxEntries.

(** [ExportData]: the loop that copies every entry into a new map. *)
Definition ExportData : M (gmap string CacheEntry) :=
  items <- range_data ;;
  ret (foldl (λ copy item, <[item.1 := item.2]> copy) ∅ items).

(** [ImportData] installs the caller's map as the table.  The map is taken
    here as a value holding one entry of its own per key: a Go map with a
    nil entry, or with one entry shared by two keys, has no counterpart. *)
Definition ImportData (d : gmap string CacheEntry) : M unit := assign_data d.

Definition with_logFile (filename : string) (w : World) : World :=
  mkWorld (mkEngine (table w) (maxEntries (cache w)) filename)
          (fs w) (clock w) (reads w) (seeds w) (ranges w).

Definition EnableLogging (filename : string) : M unit :=
  λ w, (tt, with_logFile filename w).

Definition DisableLogging : M unit := λ w, (tt, with_logFile "" w).

Definition GetLogFile : M string := λ w, (logFile (cache w), w).

(** ** persistence.go *)

Definition DefaultLogFile : string := "cache.log".

(** The [switch logEntry.Operation] of the replay loop.  [seconds] is an
    [int] obtained from an [int64] difference, which wraps. *)
Definition applyEntry (logEntry : LogEntry) : M unit :=
  if (Operation logEntry =? "SET")%string then
    Set_ (Key logEntry) (LogValue logEntry) ;;;
    if LogExpiresAt logEntry >? 0 then
      let seconds := wrap64 (LogExpiresAt logEntry - Timestamp logEntry) in
      if seconds >? 0 then Expire (Key logEntry) seconds ;;; ret tt else ret tt
    else ret tt
  else if (Operation logEntry =? "DEL")%string then
    Delete (Key logEntry) ;;; ret tt
  else if (Operation logEntry =? "EXPIRE")%string then
    let seconds := wrap64 (LogExpiresAt logEntry - Timestamp logEntry) in
    if seconds >? 0 then Expire (Key logEntry) seconds ;;; ret tt else ret tt
  else ret tt.

(** What the loop does with a non-nil [err] of [Decode]: [break] (and then
    [return nil]) when its text is "EOF", otherwise return the wrapped
    error. *)
Definition onDecodeError (err : string) : option string :=
  if (err =? "EOF")%string then None
  else Some ("error al leer entrada del log: " +:+ err).

(** The [for { ... }] loop of [LoadFromLog] over the decoder's results;
    [None] is the [nil] error. *)
Fixpoint replay (decoder : list Decoded) : M (option string) :=
  match decoder with
  | [] => ret (onDecodeError io_EOF)
  | DecodeErr err :: _ => ret (onDecodeError err)
  | Rec logEntry :: decoder' => applyEntry logEntry ;;; replay decoder'
  end.

Definition LoadFromLog (filename : string) : M (option string) :=
  let filename := if (filename =? "")%string then DefaultLogFile else filename in
  λ w, match fs w !! filename with
       | None => (Some ("archivo de log no existe: " +:+ filename), w)
       | Some (Unreadable err) => (Some ("error al abrir archivo de log: " +:+ err), w)
       | Some (Readable contents) => replay contents w
       end.

(** *** The operating system and [encoding/json] *)

(** What the persistence layer asks of its surroundings.  Each call is
    given by its outcome, an error by its text:
    - [os_OpenFile path file] is
      [os.OpenFile(path, O_APPEND|O_CREATE|O_WRONLY, 0644)] on a path where
      [fs] has [file]: the error, or what the path holds once the call has
      succeeded (on a free path, the file it created);
    - [json_Encode path file logEntry] is [encoder.Encode(logEntry)] on the
      file opened at [path], where [fs] has [file]: the error, if any, and
      what the path holds once the call has returned;
    - [os_ReadFile path] is [os.ReadFile(path)]: the error, or the bytes;
    - [json_Unmarshal data] is [json.Unmarshal(data, &snapshot)]: the
      error, or the map it has filled, in which a key that the JSON
      object maps to [null] has a nil entry. *)
Record Host : Type := mkHost {
  os_OpenFile : string → option File → string + File;
  json_Encode : string → option File → LogEntry → option string * File;
  os_ReadFile : string → string + string;
  json_Unmarshal : string → string + gmap string (option CacheEntry)
}.

(** *** Writing the log *)

Definition with_fs (files : gmap string File) (w : World) : World :=
  mkWorld (cache w) files (clock w) (reads w) (seeds w) (ranges w).

(** [for key, entry := range data] over a map that is not the table, such
    as the copy [ExportData] returned. *)
Definition range_map {A} (d : gmap string A) : M (list (string * A)) :=
  λ w, (shuffle (seeds w (ranges w)) (map_to_list d), ranged w).

(** [file, err := os.OpenFile(filename, ...)]: the error, [None] for
    [nil]. *)
Definition OpenFile (h : Host) (filename : string) : M (option string) :=
  λ w, match os_OpenFile h filename (fs w !! filename) with
       | inl err => (Some err, w)
       | inr file => (None, with_fs (<[filename := file]> (fs w)) w)
       end.

(** [encoder.Encode(logEntry)], the encoder writing to the file opened at
    [filename]. *)
Definition Encode (h : Host) (filename : string) (logEntry : LogEntry)
    : M (option string) :=
  λ w, let (err, file) := json_Encode h filename (fs w !! filename) logEntry in
       (err, with_fs (<[filename := file]> (fs w)) w).

(** The loop of [SaveToLog] over the entries of the copy. *)
Fixpoint writeEntries (h : Host) (filename : string)
    (items : list (string * CacheEntry)) : M (option string) :=
  match items with
  | [] => ret None
  | (key, entry) :: items' =>
      let logEntry :=
        {| Operation := "SET"; Key := key; LogValue := Value entry;
           LogExpiresAt := ExpiresAt entry; Timestamp := LastAccess entry |} in
      err <- Encode h filename logEntry ;;
      match err with
      | Some err => ret (Some ("error al escribir entrada: " +:+ err))
      | None => writeEntries h filename items'
      end
  end.

Definition SaveToLog (h : Host) (filename : string) : M (option string) :=
  let filename := if (filename =? "")%string then DefaultLogFile else filename in
  err <- OpenFile h filename ;;
  match err with
  | Some err => ret (Some ("error al abrir archivo de log: " +:+ err))
  | None =>
      data <- ExportData ;;
      items <- range_map data ;;
      writeEntries h filename items
  end.

(** *** Loading a snapshot *)

(** How a call ends: it returns its error ([None] for [nil]), or it
    panics, which nothing in the program recovers from. *)
Inductive Outcome : Type :=
  | Returned (err : option string)
  | Panicked.

(** The body of the loop of [LoadSnapshot], on an entry that is there. *)
Definition restoreEntry (item : string * CacheEntry) : M unit :=
  Set_ item.1 (Value item.2) ;;;
  if ExpiresAt item.2 >? 0 then
    let seconds := wrap64 (ExpiresAt item.2 - LastAccess item.2) in
    if seconds >? 0 then Expire item.1 seconds ;;; ret tt else ret tt
  else ret tt.

(** The loop of [LoadSnapshot].  On a nil entry the first thing its body
    does, reading [entry.Value], dereferences a nil pointer. *)
Fixpoint restoreEntries (items : list (string * option CacheEntry)) : M Outcome :=
  match items with
  | [] => ret (Returned None)
  | (key, None) :: _ => ret Panicked
  | (key, Some entry) :: items' => restoreEntry (key, entry) ;;; restoreEntries items'
  end.

Definition LoadSnapshot (h : Host) (filename : string) : M Outcome :=
  let filename := if (filename =? "")%string then "cache_snapshot.json" else filename in
  match os_ReadFile h filename with
  | inl err => ret (Returned (Some ("error al leer snapshot: " +:+ err)))
  | inr data =>
      match json_Unmarshal h data with
      | inl err => ret (Returned (Some ("error al deserializar snapshot: " +:+ err)))
      | inr snapshot =>
          items <- range_map snapshot ;;
          restoreEntries items
      end
  end.

(** ** Worlds to run the code in *)

(** A world around engine [c] whose clock advances by [step] nanoseconds
    per reading from [start], with map iteration in the order chosen by
    [seed] at every [range]. *)
Definition boot (c : CacheEngine) (start step : Z) (seed : list nat) : World :=
  mkWorld c ∅ (λ n, start + step * Z.of_nat n) 0 (λ _, seed) 0.

(** One host among others, for examples.  On it every open succeeds, and
    a file opened without being there is created empty; [encode] says, for
    each record, whether [Encode] fails, leaving the file as it is, or how
    the record is read back from the line added after what the file
    holds; reading and decoding a snapshot give [snapshot], if there is
    one. *)
Definition host_of (encode : LogEntry → string + LogEntry)
    (snapshot : option (gmap string (option CacheEntry))) : Host :=
  {| os_OpenFile := λ _ file, inr (default (Readable []) file);
     json_Encode := λ _ file logEntry,
       match encode logEntry, default (Readable []) file with
       | inr r, Readable contents => (None, Readable (contents ++ [Rec r]))
       | inr _, Unreadable err => (None, Unreadable err)
       | inl err, file => (Some err, file)
       end;
     os_ReadFile := λ path,
       match snapshot with
       | Some _ => inr path
       | None => inl ("open " +:+ path +:+ ": no such file or directory")
       end;
     json_Unmarshal := λ _,
       match snapshot with
       | Some entries => inr entries
       | None => inl "unexpected end of JSON input"
       end |}.

(** ** Calls on the engine *)

(** One call of a method of the engine that works on entries, kept as
    data so that statements can range over whole runs of calls. *)
Inductive Call : Type :=
  | CallSet (key : string) (value : any)
  | CallGet (key : string)
  | CallDelete (key : string)
  | CallExpire (key : string) (seconds : Z)
  | CallSweep.

Definition call (c : Call) : M unit :=
  match c with
  | CallSet key value => Set_ key value
  | CallGet key => Get key ;;; ret tt
  | CallDelete key => Delete key ;;; ret tt
  | CallExpire key seconds => Expire key seconds ;;; ret tt
  | CallSweep => cleanExpired
  end.

(** The key a call writes under, for the calls that can add an entry. *)
Definition writes_empty_key (c : Call) : Prop :=
  match c with CallSet key _ => key = "" | _ => False end.

(** ** Vocabulary of the statements *)

(** What surrounds the table is the same in [w'] as in [w]: the bound, the
    configured log file, the files, and the two oracles. *)
Definition same_surroundings (w w' : World) : Prop :=
  maxEntries (cache w') = maxEntries (cache w) ∧
  logFile (cache w') = logFile (cache w) ∧
  fs w' = fs w ∧ clock w' = clock w ∧ seeds w' = seeds w.

(** The key [evictLRU] deletes when it runs in [w], if it deletes one. *)
Definition victim (w : World) : option string :=
  let oldestKey := (scan (UnixNano (now w)) (order w)).1 in
  if decide (oldestKey ≠ "") then Some oldestKey else None.

(** [e] is among the least recently accessed entries of the table. *)
Definition least_recent (w : World) (e : CacheEntry) : Prop :=
  ∀ k' e', table w !! k' = Some e' → LastAccess e ≤ LastAccess e'.

(** The test of [Get] and of [cleanExpired] on an entry, at second [t]. *)
Definition expired (e : CacheEntry) (t : Z) : Prop := 0 < ExpiresAt e ∧ ExpiresAt e ≤ t.

#[global] Instance expired_dec (e : CacheEntry) (t : Z) : Decision (expired e t).
Proof. unfold expired. apply _. Defined.

(** The record [SaveToLog] hands to [Encode] for an entry of the table. *)
Definition logged (item : string * CacheEntry) : LogEntry :=
  {| Operation := "SET"; Key := item.1; LogValue := Value item.2;
     LogExpiresAt := ExpiresAt item.2; Timestamp := LastAccess item.2 |}.

(** A log of complete records: [Decode] returns them one by one and then
    meets a clean end of input. *)
Definition log_of (recs : list LogEntry) : File := Readable (map Rec recs).

(** The host appends at [path]: on a log of complete records, [Encode]
    of [r] returns no error, and the log then holds one more record, which
    is [r] as [Decode] reads it back from the line written, [r']. *)
Definition appends (h : Host) (path : string) (r r' : LogEntry) : Prop :=
  ∀ recs, json_Encode h path (Some (Readable (map Rec recs))) r
          = (None, Readable (map Rec recs ++ [Rec r'])).

(** An entry with another payload. *)
Definition with_Value (value : any) (entry : CacheEntry) : CacheEntry :=
  {| Value := value; ExpiresAt := ExpiresAt entry; LastAccess := LastAccess entry |}.

(** A snapshot entry that is there. *)
Definition present (item : string * CacheEntry) : string * option CacheEntry :=
  (item.1, Some item.2).

(** The relative time to live that the loaders compute for an entry
    stamped at [LastAccess], and the expiration the entry is given when
    restored at second [t]: the loaders call [Expire] only for a positive
    expiration with a positive time left. *)
Definition time_left (e : CacheEntry) : Z := wrap64 (ExpiresAt e - LastAccess e).

Definition restored_expiry (e : CacheEntry) (t : Z) : Z :=
  if (ExpiresAt e >? 0) && (time_left e >? 0) then wrap64 (t + time_left e) else 0.

(** The values the table holds, key by key. *)
Definition contents (w : World) : gmap string any := Value <$> table w.

(** What replaying one record does to the values of a table. *)
Definition replayed (m : gmap string any) (r : LogEntry) : gmap string any :=
  if (Operation r =? "SET")%string then <[Key r := LogValue r]> m
  else if (Operation r =? "DEL")%string then delete (Key r) m
  else m.

(** The number of [SET] records of a log. *)
Definition count_sets (recs : list LogEntry) : nat :=
  length (filter (λ r, Operation r = "SET") recs).

(** The operations the replay loop has a case for. *)
Definition known_operation (r : LogEntry) : Prop :=
  Operation r = "SET" ∨ Operation r = "DEL" ∨ Operation r = "EXPIRE".

#[global] Instance known_operation_dec (r : LogEntry) : Decision (known_operation r).
Proof. unfold known_operation. apply _. Defined.

(** ** Assumptions on the clock *)

(** Every reading is later than the one before.  The engine compares
    nanosecond readings with [<], so two equal readings are enough to hide
    an entry from [evictLRU]. *)
Definition clock_increasing (w : World) : Prop := ∀ n, clock w n < clock w (S n).

(** ** Invariants *)

(** What a run of [Set] on non-empty keys maintains when the clock
    advances: the table is within its bound, holds no entry under the
    empty key, and every entry was last accessed before the next reading. *)
Record bounded (w : World) : Prop := mkBounded {
  bounded_size : Z.of_nat (size (table w)) ≤ maxEntries (cache w);
  bounded_cap : 0 < maxEntries (cache w);
  bounded_keys : table w !! "" = None;
  bounded_past : ∀ k e, table w !! k = Some e → LastAccess e < now w;
  bounded_clock : clock_increasing w
}.

(** A table none of whose entries carries an expiration, all of them last
    accessed before the next reading of an advancing clock. *)
Record settled (w : World) : Prop := mkSettled {
  settled_live : ∀ k e, table w !! k = Some e → ExpiresAt e = 0;
  settled_past : ∀ k e, table w !! k = Some e → LastAccess e < now w;
  settled_clock : clock_increasing w
}.

(** The calls [c.Set(k, v)] for a list of pairs. *)
Definition sets (calls : list (string * any)) : M unit :=
  seq_ (map (λ kv, Set_ kv.1 kv.2) calls).

(** The calls [c.Get(k)] for a list of keys. *)
Definition gets (keys : list string) : M unit :=
  seq_ (map Get keys).

(** * Properties *)

(** ** Arithmetic of [int64] and of the clock *)

Lemma wrap64_id (z : Z) : is_int64 z → wrap64 z = z.
Proof.
  unfold is_int64, min_int64, max_int64, wrap64. intros [Hlo Hhi].
  rewrite Z.mod_small; lia.
Qed.

Lemma Unix_mono (s t : Z) : s ≤ t → Unix s ≤ Unix t.
Proof. unfold Unix. intros H. apply Z.div_le_mono; lia. Qed.

Lemma Unix_int64 (t : Z) : is_int64 t → is_int64 (Unix t).
Proof.
  unfold is_int64, min_int64, max_int64, Unix. intros [Hlo Hhi]. split.
  - apply Z.div_le_lower_bound; lia.
  - apply Z.div_le_upper_bound; lia.
Qed.

(** ** Iteration orders *)

Lemma shuffle_Permutation {A} (seed : list nat) (l : list A) :
  shuffle seed l ≡ₚ l.
Proof.
  revert l. induction seed as [|i seed IH]; intros l; simpl; [done|].
  destruct (l !! (i `mod` length l)%nat) as [x|] eqn:Hx; [|done].
  rewrite IH. symmetry. by apply delete_Permutation.
Qed.

(** Every order of the entries is the order of some seed. *)
Lemma shuffle_complete {A} (l l' : list A) :
  l ≡ₚ l' → ∃ seed, shuffle seed l = l'.
Proof.
  revert l. induction l' as [|x l' IH]; intros l Hp.
  - apply Permutation_nil_r in Hp as ->. by exists [].
  - assert (x ∈ l) as Hin by (rewrite Hp; left).
    apply list_elem_of_lookup in Hin as [j Hj].
    assert (delete j l ≡ₚ l') as Hd.
    { apply (Permutation_cons_inv (a := x)).
      rewrite <- Hp. symmetry. by apply delete_Permutation. }
    destruct (IH _ Hd) as [seed Hs]. exists (j :: seed). simpl.
    assert ((j `mod` length l)%nat = j) as ->.
    { apply Nat.mod_small. by eapply lookup_lt_Some. }
    by rewrite Hj, Hs.
Qed.

Lemma elem_of_shuffle_table (seed : list nat) (m : gmap string CacheEntry) k e :
  (k, e) ∈ shuffle seed (map_to_list m) ↔ m !! k = Some e.
Proof. rewrite shuffle_Permutation. apply elem_of_map_to_list. Qed.

(** ** The scan of [evictLRU] *)

Lemma foldl_older_le (acc : string * Z) items :
  (foldl older acc items).2 ≤ acc.2.
Proof.
  revert acc. induction items as [|it items IH]; intros acc; simpl; [lia|].
  etrans; [apply IH|]. unfold older. case_match; simpl; lia.
Qed.

Lemma foldl_older_lower (acc : string * Z) items k e :
  (k, e) ∈ items → (foldl older acc items).2 ≤ LastAccess e.
Proof.
  revert acc. induction items as [|it items IH]; intros acc Hin; simpl.
  - by apply elem_of_nil in Hin.
  - apply elem_of_cons in Hin as [<-|Hin]; [|by apply IH].
    etrans; [apply foldl_older_le|]. unfold older. simpl.
    destruct (LastAccess e <? acc.2) eqn:Hlt; simpl; lia.
Qed.

(** The scan either keeps its start value, nothing being older, or stops
    on an entry of the list that is strictly older than the start. *)
Lemma foldl_older_cases (acc : string * Z) items :
  foldl older acc items = acc ∨
  ∃ k e, (k, e) ∈ items ∧ foldl older acc items = (k, LastAccess e)
         ∧ LastAccess e < acc.2.
Proof.
  revert acc. induction items as [|[k e] items IH]; intros acc; simpl; [by left|].
  assert (older acc (k, e) = (k, LastAccess e) ∧ LastAccess e < acc.2
          ∨ older acc (k, e) = acc) as [[-> Hlt]| ->].
  { unfold older. simpl. destruct (LastAccess e <? acc.2) eqn:Hlt; [left|by right].
    apply Z.ltb_lt in Hlt. done. }
  - destruct (IH (k, LastAccess e)) as [Heq|(k' & e' & Hin & Heq & Hlt')].
    + right. exists k, e. split; [left|]. by rewrite Heq.
    + right. exists k', e'. split; [by right|]. split; [done|]. simpl in Hlt'. lia.
  - destruct (IH acc) as [Heq|(k' & e' & Hin & Heq & Hlt')]; [by left|].
    right. exists k', e'. split; [by right|]. done.
Qed.

Lemma scan_start_when_none_older (t : Z) items :
  (∀ k e, (k, e) ∈ items → t ≤ LastAccess e) → scan t items = ("", t).
Proof.
  unfold scan. intros Hall.
  destruct (foldl_older_cases ("", t) items) as [Heq|(k & e & Hin & _ & Hlt)]; [done|].
  specialize (Hall _ _ Hin). simpl in Hlt. lia.
Qed.

Lemma scan_finds_when_some_older (t : Z) items k0 e0 :
  (k0, e0) ∈ items → LastAccess e0 < t →
  ∃ k e, (k, e) ∈ items ∧ scan t items = (k, LastAccess e) ∧ LastAccess e < t.
Proof.
  unfold scan. intros Hin0 Hlt0.
  destruct (foldl_older_cases ("", t) items) as [Heq|Hfound]; [|done].
  pose proof (foldl_older_lower ("", t) items _ _ Hin0) as Hlow.
  rewrite Heq in Hlow. simpl in Hlow. lia.
Qed.

(** ** Bookkeeping of the world *)

Lemma table_with_data d (w : World) : table (with_data d w) = d.
Proof. reflexivity. Qed.

Lemma table_tick (w : World) : table (tick w) = table w.
Proof. reflexivity. Qed.

Lemma table_ranged (w : World) : table (ranged w) = table w.
Proof. reflexivity. Qed.

Lemma clock_with_data d (w : World) : clock (with_data d w) = clock w.
Proof. reflexivity. Qed.

Lemma clock_tick (w : World) : clock (tick w) = clock w.
Proof. reflexivity. Qed.

Lemma reads_with_data d (w : World) : reads (with_data d w) = reads w.
Proof. reflexivity. Qed.

Lemma reads_tick (w : World) : reads (tick w) = S (reads w).
Proof. reflexivity. Qed.

Lemma maxEntries_with_data d (w : World) :
  maxEntries (cache (with_data d w)) = maxEntries (cache w).
Proof. reflexivity. Qed.

Lemma maxEntries_tick (w : World) : maxEntries (cache (tick w)) = maxEntries (cache w).
Proof. reflexivity. Qed.

Create Rewrite HintDb world.
#[local] Hint Rewrite table_with_data table_tick table_ranged clock_with_data
  clock_tick reads_with_data reads_tick maxEntries_with_data maxEntries_tick : world.

Ltac wsimpl := autorewrite with world.

Lemma elem_of_order (w : World) k e : (k, e) ∈ order w ↔ table w !! k = Some e.
Proof. apply elem_of_shuffle_table. Qed.

Lemma expired_test (e : CacheEntry) (t : Z) :
  (ExpiresAt e >? 0) && (ExpiresAt e <=? t) = true ↔ expired e t.
Proof. unfold expired. rewrite andb_true_iff, Z.gtb_lt, Z.leb_le. lia. Qed.

Lemma expired_test_false (e : CacheEntry) (t : Z) :
  (ExpiresAt e >? 0) && (ExpiresAt e <=? t) = false ↔ ¬ expired e t.
Proof. rewrite <- expired_test. by destruct (_ && _). Qed.

(** ** [evictLRU] *)

Lemma evictLRU_eq (w : World) :
  evictLRU w =
  (tt, match victim w with
       | Some k => with_data (delete k (table w)) (ranged (tick w))
       | None => ranged (tick w)
       end).
Proof.
  unfold evictLRU, victim, bind, time_Now, range_data, remove, ret. simpl.
  change (order (tick w)) with (order w).
  by destruct (decide ((scan (UnixNano (now w)) (order w)).1 ≠ "")).
Qed.

Lemma evictLRU_table (w : World) :
  table (exec evictLRU w) =
  match victim w with Some k => delete k (table w) | None => table w end.
Proof. unfold exec. rewrite evictLRU_eq. simpl. by destruct (victim w). Qed.

Lemma evictLRU_reads (w : World) : reads (exec evictLRU w) = S (reads w).
Proof. unfold exec. rewrite evictLRU_eq. simpl. by destruct (victim w). Qed.

Lemma evictLRU_clock (w : World) : clock (exec evictLRU w) = clock w.
Proof. unfold exec. rewrite evictLRU_eq. simpl. by destruct (victim w). Qed.

Lemma evictLRU_maxEntries (w : World) :
  maxEntries (cache (exec evictLRU w)) = maxEntries (cache w).
Proof. unfold exec. rewrite evictLRU_eq. simpl. by destruct (victim w). Qed.

(** The entry [evictLRU] deletes is in the table, is older than the
    reading the scan started from, and no entry is older than it. *)
Lemma victim_Some (w : World) k :
  victim w = Some k →
  k ≠ "" ∧ ∃ e, table w !! k = Some e ∧ LastAccess e < now w ∧ least_recent w e.
Proof.
  unfold victim, UnixNano. case_decide as Hk; [|done]. intros [= <-].
  split; [done|]. unfold scan in *.
  destruct (foldl_older_cases ("", now w) (order w)) as [Heq|(k & e & Hin & Heq & Hlt)].
  - rewrite Heq in Hk. done.
  - rewrite Heq. simpl. exists e. split; [by apply elem_of_order|].
    split; [done|]. intros k' e' Hk'.
    apply elem_of_order in Hk'.
    pose proof (foldl_older_lower ("", now w) _ _ _ Hk') as Hlow.
    by rewrite Heq in Hlow.
Qed.

(** When nothing is deleted, either no entry is older than the reading, or
    the scan stopped on the entry of the empty key. *)
Lemma victim_None (w : World) :
  victim w = None →
  (∀ k e, table w !! k = Some e → now w ≤ LastAccess e) ∨
  (∃ e, table w !! "" = Some e ∧ LastAccess e < now w ∧ least_recent w e).
Proof.
  unfold victim, UnixNano. case_decide as Hk; [done|]. intros _.
  unfold scan in *.
  destruct (foldl_older_cases ("", now w) (order w)) as [Heq|(k & e & Hin & Heq & Hlt)].
  - left. intros k e Hke. apply elem_of_order in Hke.
    pose proof (foldl_older_lower ("", now w) _ _ _ Hke) as Hlow.
    by rewrite Heq in Hlow.
  - right. rewrite Heq in Hk. simpl in Hk. subst k. exists e.
    split; [by apply elem_of_order|]. split; [done|]. intros k' e' Hk'.
    apply elem_of_order in Hk'.
    pose proof (foldl_older_lower ("", now w) _ _ _ Hk') as Hlow.
    by rewrite Heq in Hlow.
Qed.

(** With the empty key absent and an entry older than the reading, an
    entry is deleted. *)
Lemma victim_is_Some (w : World) k0 e0 :
  table w !! "" = None → table w !! k0 = Some e0 → LastAccess e0 < now w →
  is_Some (victim w).
Proof.
  intros Hempty Hk0 Hlt0. destruct (victim w) eqn:Hv; [done|].
  apply victim_None in Hv as [Hall|(e & He & _)].
  - specialize (Hall _ _ Hk0). lia.
  - congruence.
Qed.

(** A strictly least recent entry, older than the reading, is the one the
    scan stops on, in every order of iteration. *)
Lemma scan_unique_min (w : World) k0 e0 :
  table w !! k0 = Some e0 → LastAccess e0 < now w →
  (∀ k e, k ≠ k0 → table w !! k = Some e → LastAccess e0 < LastAccess e) →
  (scan (now w) (order w)).1 = k0.
Proof.
  intros Hk0 Hlt0 Hmin.
  destruct (scan_finds_when_some_older (now w) (order w) k0 e0)
    as (k & e & Hin & Heq & Hlt); [by apply elem_of_order|done|].
  rewrite Heq. simpl. destruct (decide (k = k0)) as [|Hne]; [done|].
  apply elem_of_order in Hin. specialize (Hmin _ _ Hne Hin).
  assert ((k0, e0) ∈ order w) as Hin0 by by apply elem_of_order.
  pose proof (foldl_older_lower ("", now w) _ _ _ Hin0) as Hlow.
  unfold scan in Heq. rewrite Heq in Hlow. simpl in Hlow. lia.
Qed.

(** ** [Set] *)

Lemma Set_eq key value (w : World) :
  Set_ key value w =
  (tt, let w1 := if Z.of_nat (size (table w)) >=? maxEntries (cache w)
                 then exec evictLRU w else w in
       with_data (<[key := mkEntry value 0 (now w1)]> (table w1)) (tick w1)).
Proof.
  unfold Set_, bind, len_data, get_maxEntries, time_Now, store, ret, exec, UnixNano.
  destruct (Z.of_nat (size (table w)) >=? maxEntries (cache w)); [|done].
  by destruct (evictLRU w) as [[] w1].
Qed.

Lemma Set_below_capacity key value (w : World) :
  Z.of_nat (size (table w)) < maxEntries (cache w) →
  Set_ key value w =
  (tt, with_data (<[key := mkEntry value 0 (now w)]> (table w)) (tick w)).
Proof.
  intros Hlt. rewrite Set_eq.
  destruct (Z.geb_spec (Z.of_nat (size (table w))) (maxEntries (cache w))); [lia|done].
Qed.

Lemma Set_at_capacity key value (w : World) :
  maxEntries (cache w) ≤ Z.of_nat (size (table w)) →
  Set_ key value w =
  (tt, with_data (<[key := mkEntry value 0 (clock w (S (reads w)))]>
                    (table (exec evictLRU w))) (tick (exec evictLRU w))).
Proof.
  intros Hge. rewrite Set_eq.
  destruct (Z.geb_spec (Z.of_nat (size (table w))) (maxEntries (cache w))); [|lia].
  simpl. unfold now. by rewrite evictLRU_reads, evictLRU_clock.
Qed.

Lemma Set_maxEntries key value (w : World) :
  maxEntries (cache (exec (Set_ key value) w)) = maxEntries (cache w).
Proof.
  unfold exec at 1. rewrite Set_eq. cbn [snd].
  destruct (Z.of_nat (size (table w)) >=? maxEntries (cache w)); [|done].
  cbv zeta. change (maxEntries (cache (exec evictLRU w)) = maxEntries (cache w)).
  apply evictLRU_maxEntries.
Qed.

Lemma Set_clock key value (w : World) : clock (exec (Set_ key value) w) = clock w.
Proof.
  unfold exec at 1. rewrite Set_eq. cbn [snd].
  destruct (Z.of_nat (size (table w)) >=? maxEntries (cache w)); [|done].
  cbv zeta. change (clock (exec evictLRU w) = clock w). apply evictLRU_clock.
Qed.

Lemma Set_table_below_capacity key value (w : World) :
  Z.of_nat (size (table w)) < maxEntries (cache w) →
  table (exec (Set_ key value) w) = <[key := mkEntry value 0 (now w)]> (table w).
Proof. intros Hlt. unfold exec. by rewrite Set_below_capacity. Qed.

Lemma Set_table_at_capacity key value (w : World) :
  maxEntries (cache w) ≤ Z.of_nat (size (table w)) →
  table (exec (Set_ key value) w) =
  <[key := mkEntry value 0 (clock w (S (reads w)))]> (table (exec evictLRU w)).
Proof. intros Hge. unfold exec at 1. by rewrite Set_at_capacity. Qed.

(** ** [Get], [Delete], [Expire] *)

Lemma Get_absent key (w : World) :
  table w !! key = None → Get key w = ((Nil, false), w).
Proof. intros Hk. unfold Get, bind, load. by rewrite Hk. Qed.

Lemma Get_expired key e (w : World) :
  table w !! key = Some e → expired e (Unix (now w)) →
  Get key w = ((Nil, false), with_data (delete key (table w)) (tick w)).
Proof.
  intros Hk Hexp. apply expired_test in Hexp.
  unfold Get, bind, load, time_Now. rewrite Hk. by rewrite Hexp.
Qed.

Lemma Get_live key e (w : World) :
  table w !! key = Some e → ¬ expired e (Unix (now w)) →
  Get key w =
  ((Value e, true),
   with_data (<[key := with_LastAccess (clock w (S (reads w))) e]> (table w))
             (tick (tick w))).
Proof.
  intros Hk Hexp. apply expired_test_false in Hexp.
  unfold Get, bind, load, time_Now. rewrite Hk. by rewrite Hexp.
Qed.

Lemma Delete_eq key (w : World) :
  Delete key w =
  match table w !! key with
  | Some _ => (true, with_data (delete key (table w)) w)
  | None => (false, w)
  end.
Proof. unfold Delete, bind, load. by destruct (table w !! key). Qed.

Lemma Expire_absent key seconds (w : World) :
  table w !! key = None → Expire key seconds w = (false, w).
Proof. intros Hk. unfold Expire, bind, load. by rewrite Hk. Qed.

Lemma Expire_present key seconds e (w : World) :
  table w !! key = Some e →
  Expire key seconds w =
  (true, with_data (<[key := with_ExpiresAt (wrap64 (Unix (now w) + seconds)) e]> (table w))
                   (tick w)).
Proof. intros Hk. unfold Expire, bind, load, time_Now. by rewrite Hk. Qed.

(** ** The replay loop *)

Lemma replay_records recs rest (w : World) :
  replay (map Rec recs ++ rest) w = replay rest (exec (seq_ (map applyEntry recs)) w).
Proof.
  revert w. induction recs as [|r recs IH]; intros w; [done|].
  simpl. unfold bind, exec. destruct (applyEntry r w) as [[] w1]. simpl.
  rewrite IH. unfold exec. done.
Qed.

Lemma replay_clean_end recs (w : World) :
  replay (map Rec recs) w = (None, exec (seq_ (map applyEntry recs)) w).
Proof.
  rewrite <- (app_nil_r (map Rec recs)). by rewrite replay_records.
Qed.

Lemma replay_error recs err rest (w : World) :
  replay (map Rec recs ++ DecodeErr err :: rest) w =
  (onDecodeError err, exec (seq_ (map applyEntry recs)) w).
Proof. by rewrite replay_records. Qed.

Lemma onDecodeError_other err :
  err ≠ io_EOF → onDecodeError err = Some ("error al leer entrada del log: " +:+ err).
Proof.
  intros Hne. unfold onDecodeError.
  destruct (String.eqb_spec err "EOF"); [done|done].
Qed.

(** ** Sequences of calls *)

Lemma exec_bind {A B} (m : M A) (k : A → M B) (w : World) :
  exec (bind m k) w = exec (k (eval m w)) (exec m w).
Proof. unfold exec, eval, bind. by destruct (m w). Qed.

Lemma exec_seq_cons {A} (m : M A) (ms : list (M A)) (w : World) :
  exec (seq_ (m :: ms)) w = exec (seq_ ms) (exec m w).
Proof. simpl. by rewrite exec_bind. Qed.

Lemma clock_increasing_lt (w : World) (n m : nat) :
  clock_increasing w → (n < m)%nat → clock w n < clock w m.
Proof.
  intros Hinc Hlt. induction Hlt as [|m Hlt IH]; [apply Hinc|].
  specialize (Hinc m). lia.
Qed.

(** ** The capacity bound under [Set] *)

Lemma Set_reads_below_capacity key value (w : World) :
  Z.of_nat (size (table w)) < maxEntries (cache w) →
  reads (exec (Set_ key value) w) = S (reads w).
Proof. intros Hlt. unfold exec. by rewrite Set_below_capacity. Qed.

Lemma Set_reads_at_capacity key value (w : World) :
  maxEntries (cache w) ≤ Z.of_nat (size (table w)) →
  reads (exec (Set_ key value) w) = S (S (reads w)).
Proof.
  intros Hge. unfold exec at 1. rewrite Set_at_capacity by done.
  cbn [snd]. change (S (reads (exec evictLRU w)) = S (S (reads w))).
  by rewrite evictLRU_reads.
Qed.

Lemma Set_preserves_bounded key value (w : World) :
  key ≠ "" → bounded w → bounded (exec (Set_ key value) w).
Proof.
  intros Hkey [Hsize Hcap Hkeys Hpast Hclock].
  assert (clock_increasing (exec (Set_ key value) w)) as Hclock'.
  { unfold clock_increasing. by rewrite Set_clock. }
  destruct (Z.lt_ge_cases (Z.of_nat (size (table w))) (maxEntries (cache w)))
    as [Hroom|Hfull].
  - (* below the bound: no eviction *)
    split; [| | | |done].
    + rewrite Set_maxEntries, Set_table_below_capacity by done.
      rewrite map_size_insert. destruct (table w !! key); simpl; lia.
    + by rewrite Set_maxEntries.
    + rewrite Set_table_below_capacity by done. by rewrite lookup_insert_ne.
    + intros k e. rewrite Set_table_below_capacity by done.
      unfold now. rewrite Set_clock, Set_reads_below_capacity by done.
      pose proof (Hclock (reads w)) as Hstep.
      intros [[_ <-]|[_ Hk]]%lookup_insert_Some; simpl.
      * done.
      * specialize (Hpast _ _ Hk). unfold now in Hpast. lia.
  - (* at the bound: one entry is evicted first *)
    assert (size (table w) ≠ 0%nat) as Hne by lia.
    apply map_size_ne_0_lookup_1 in Hne as [k0 [e0 Hk0]].
    destruct (victim_is_Some w k0 e0 Hkeys Hk0 (Hpast _ _ Hk0)) as [k Hv].
    pose proof (victim_Some w k Hv) as (_ & e & Hk & _ & _).
    assert (table (exec evictLRU w) = delete k (table w)) as Hevict.
    { by rewrite evictLRU_table, Hv. }
    split; [| | | |done].
    + rewrite Set_maxEntries, Set_table_at_capacity, Hevict by done.
      rewrite map_size_insert, map_size_delete, Hk.
      destruct (delete k (table w) !! key); simpl; lia.
    + by rewrite Set_maxEntries.
    + rewrite Set_table_at_capacity, Hevict by done.
      rewrite lookup_insert_ne by done. apply lookup_delete_None. by right.
    + intros k1 e1. rewrite Set_table_at_capacity, Hevict by done.
      unfold now. rewrite Set_clock, Set_reads_at_capacity by done.
      pose proof (Hclock (reads w)) as Hstep1.
      pose proof (Hclock (S (reads w))) as Hstep2.
      intros [[_ <-]|[_ Hk1]]%lookup_insert_Some; simpl.
      * done.
      * apply lookup_delete_Some in Hk1 as [_ Hk1].
        specialize (Hpast _ _ Hk1). unfold now in Hpast. lia.
Qed.

Lemma sets_preserve_bounded (calls : list (string * any)) (w : World) :
  Forall (λ kv, kv.1 ≠ "") calls → bounded w → bounded (exec (sets calls) w).
Proof.
  unfold sets. revert w. induction calls as [|[k v] calls IH]; intros w Hkeys Hb; [done|].
  apply Forall_cons in Hkeys as [Hk Hkeys]. simpl map. rewrite exec_seq_cons.
  apply IH; [done|]. by apply Set_preserves_bounded.
Qed.

Lemma fresh_bounded (n : Z) (w : World) :
  cache w = NewCacheEngine n → clock_increasing w → bounded w.
Proof.
  intros Hc Hclock.
  split; unfold table; rewrite ?Hc; unfold NewCacheEngine; cbn [data maxEntries]; try done.
  - rewrite map_size_empty. destruct (Z.leb_spec n 0); lia.
  - destruct (Z.leb_spec n 0); lia.
Qed.

(** ** Filling the table, touching entries *)

Lemma Get_touch key e (w : World) :
  settled w → table w !! key = Some e →
  Get key w =
  ((Value e, true),
   with_data (<[key := with_LastAccess (clock w (S (reads w))) e]> (table w))
             (tick (tick w))).
Proof.
  intros Hs Hk. apply Get_live; [done|].
  unfold expired. rewrite (settled_live w Hs _ _ Hk). lia.
Qed.

Lemma Get_preserves_settled key e (w : World) :
  settled w → table w !! key = Some e → settled (exec (Get key) w).
Proof.
  intros Hs Hk. unfold exec. rewrite (Get_touch _ _ _ Hs Hk). cbn [snd].
  destruct Hs as [Hlive Hpast Hclock].
  pose proof (Hclock (reads w)) as Hstep1.
  pose proof (Hclock (S (reads w))) as Hstep2.
  split; wsimpl.
  - intros k e' [[_ <-]|[_ Hk']]%lookup_insert_Some; simpl; eauto.
  - intros k e' [[_ <-]|[_ Hk']]%lookup_insert_Some; unfold now; simpl; [lia|].
    specialize (Hpast _ _ Hk'). unfold now in Hpast. lia.
  - done.
Qed.

(** A run of [Set] on keys that are new to a table with room for them:
    nothing is evicted, every pair is stored. *)
Lemma sets_fill (calls : list (string * any)) (w : World) :
  settled w → NoDup calls.*1 →
  (∀ k, k ∈ calls.*1 → table w !! k = None) →
  Z.of_nat (size (table w) + length calls) ≤ maxEntries (cache w) →
  let w1 := exec (sets calls) w in
  settled w1 ∧ clock w1 = clock w ∧ maxEntries (cache w1) = maxEntries (cache w) ∧
  size (table w1) = (size (table w) + length calls)%nat ∧
  (∀ k, k ∉ calls.*1 → table w1 !! k = table w !! k) ∧
  (∀ k v, (k, v) ∈ calls → ∃ e, table w1 !! k = Some e ∧ Value e = v).
Proof.
  unfold sets. revert w.
  induction calls as [|[k v] calls IH]; intros w Hs Hnd Hnew Hroom; simpl.
  - change (exec (ret tt) w) with w.
    split; [done|]. split; [done|]. split; [done|]. split; [lia|]. split; [done|].
    intros k v Hin. by apply elem_of_nil in Hin.
  - rewrite fmap_cons in Hnd. apply NoDup_cons in Hnd as [Hk Hnd]. simpl in Hk.
    simpl length in Hroom.
    assert (Z.of_nat (size (table w)) < maxEntries (cache w)) as Hlt by lia.
    assert (table w !! k = None) as Hknew by (apply Hnew; rewrite fmap_cons; left).
    set (w0 := exec (Set_ k v) w).
    assert (table w0 = <[k := mkEntry v 0 (now w)]> (table w)) as Htab
      by by apply Set_table_below_capacity.
    assert (clock w0 = clock w) as Hclk by apply Set_clock.
    assert (reads w0 = S (reads w)) as Hrd by by apply Set_reads_below_capacity.
    assert (settled w0) as Hs0.
    { destruct Hs as [Hlive Hpast Hclock]. pose proof (Hclock (reads w)) as Hstep.
      split.
      - intros k' e'. rewrite Htab.
        intros [[_ <-]|[_ Hk']]%lookup_insert_Some; simpl; eauto.
      - intros k' e'. rewrite Htab. unfold now. rewrite Hclk, Hrd.
        intros [[_ <-]|[_ Hk']]%lookup_insert_Some; simpl; [done|].
        specialize (Hpast _ _ Hk'). unfold now in Hpast. lia.
      - unfold clock_increasing. by rewrite Hclk. }
    destruct (IH w0) as (Hs1 & Hclk1 & Hmax1 & Hsize1 & Hother1 & Hin1).
    + done.
    + done.
    + intros k' Hk'. rewrite Htab, lookup_insert_ne by (intros ->; done).
      apply Hnew. rewrite fmap_cons. by right.
    + unfold w0 at 2. rewrite Set_maxEntries, Htab, map_size_insert_None by done. lia.
    + rewrite exec_bind. fold w0.
      split; [done|]. split; [by rewrite Hclk1|].
      split; [rewrite Hmax1; apply Set_maxEntries|].
      split; [rewrite Hsize1, Htab, map_size_insert_None by done; lia|]. split.
      * intros k' Hk'. apply not_elem_of_cons in Hk' as [Hne Hk'].
        rewrite Hother1, Htab by done. by rewrite lookup_insert_ne.
      * intros k' v' [[= -> ->]|Hin]%elem_of_cons; [|by apply Hin1].
        rewrite Hother1, Htab, lookup_insert_eq by done. by eexists.
Qed.

(** A run of [Get] on keys of a settled table: the table keeps its keys
    and values, the entries read are accessed after the run began, the
    others are as they were. *)
Lemma gets_touch (keys : list string) (w : World) :
  settled w →
  (∀ k, k ∈ keys → is_Some (table w !! k)) →
  let w2 := exec (gets keys) w in
  settled w2 ∧ clock w2 = clock w ∧ maxEntries (cache w2) = maxEntries (cache w) ∧
  size (table w2) = size (table w) ∧ now w ≤ now w2 ∧
  (∀ k, k ∉ keys → table w2 !! k = table w !! k) ∧
  (∀ k e, table w !! k = Some e →
     ∃ e2, table w2 !! k = Some e2 ∧ Value e2 = Value e ∧
           (k ∈ keys → now w < LastAccess e2)).
Proof.
  unfold gets. revert w. induction keys as [|k keys IH]; intros w Hs Hin; simpl.
  - change (exec (ret tt) w) with w.
    split; [done|]. split; [done|]. split; [done|]. split; [done|].
    split; [lia|]. split; [done|].
    intros k e Hk. exists e. split; [done|]. split; [done|].
    intros Hk'. by apply elem_of_nil in Hk'.
  - destruct (Hin k) as [e Hk]; [left|].
    set (w0 := exec (Get k) w).
    assert (table w0 = <[k := with_LastAccess (clock w (S (reads w))) e]> (table w)
            ∧ clock w0 = clock w ∧ reads w0 = S (S (reads w))
            ∧ maxEntries (cache w0) = maxEntries (cache w)) as (Htab & Hclk & Hrd & Hmax).
    { unfold w0, exec. by rewrite (Get_touch _ _ _ Hs Hk). }
    assert (settled w0) as Hs0 by by eapply Get_preserves_settled.
    pose proof (settled_clock w Hs) as Hclock.
    assert (now w < now w0) as Hnow.
    { unfold now. rewrite Hclk, Hrd. apply clock_increasing_lt; [done|lia]. }
    destruct (IH w0) as (Hs2 & Hclk2 & Hmax2 & Hsize2 & Hnow2 & Hother2 & Hkeep2).
    + done.
    + intros k' Hk'. rewrite Htab. apply lookup_insert_is_Some'. right. apply Hin. by right.
    + rewrite exec_bind. fold w0.
      split; [done|]. split; [by rewrite Hclk2|]. split; [by rewrite Hmax2|].
      split; [rewrite Hsize2, Htab; by apply map_size_insert_Some|].
      split; [lia|]. split.
      * intros k' Hk'. apply not_elem_of_cons in Hk' as [Hne Hk'].
        rewrite Hother2, Htab by done. by rewrite lookup_insert_ne.
      * intros k' e' Hk'.
        destruct (decide (k' = k)) as [->|Hne].
        -- rewrite Hk in Hk'. injection Hk' as <-.
           destruct (Hkeep2 k (with_LastAccess (clock w (S (reads w))) e))
             as (e2 & Hk2 & Hval & Hacc); [by rewrite Htab, lookup_insert_eq|].
           exists e2. split; [done|]. split; [done|]. intros _.
           destruct (decide (k ∈ keys)) as [Hmem|Hmem].
           ++ specialize (Hacc Hmem). lia.
           ++ rewrite Hother2, Htab, lookup_insert_eq in Hk2 by done.
              injection Hk2 as <-. simpl.
              pose proof (Hclock (reads w)) as Hstep. unfold now. lia.
        -- destruct (Hkeep2 k' e') as (e2 & Hk2 & Hval & Hacc);
             [by rewrite Htab, lookup_insert_ne|].
           exists e2. split; [done|]. split; [done|].
           intros [->|Hmem]%elem_of_cons; [done|]. specialize (Hacc Hmem). lia.
Qed.

(** ** The sweep *)

Lemma sweep_table (t : Z) (item : string * CacheEntry) (w : World) :
  table (exec (sweep t item) w) =
  if (ExpiresAt item.2 >? 0) && (ExpiresAt item.2 <=? t)
  then delete item.1 (table w) else table w.
Proof. unfold sweep. by destruct (_ && _). Qed.

Lemma sweeps_absent (t : Z) items (w : World) k :
  table w !! k = None → table (exec (seq_ (map (sweep t) items)) w) !! k = None.
Proof.
  revert w. induction items as [|item items IH]; intros w Hk; [done|].
  simpl map. rewrite exec_seq_cons. apply IH. rewrite sweep_table.
  case_match; [|done]. apply lookup_delete_None. by right.
Qed.

Lemma sweeps_expired (t : Z) items (w : World) k e :
  (k, e) ∈ items → expired e t →
  table (exec (seq_ (map (sweep t) items)) w) !! k = None.
Proof.
  revert w. induction items as [|item items IH]; intros w Hin Hexp.
  - by apply elem_of_nil in Hin.
  - simpl map. rewrite exec_seq_cons.
    apply elem_of_cons in Hin as [<-|Hin]; [|by apply IH].
    apply sweeps_absent. rewrite sweep_table. simpl.
    apply expired_test in Hexp. rewrite Hexp. apply lookup_delete_eq.
Qed.

Lemma sweeps_live (t : Z) items (w : World) k :
  (∀ e, (k, e) ∈ items → ¬ expired e t) →
  table (exec (seq_ (map (sweep t) items)) w) !! k = table w !! k.
Proof.
  revert w. induction items as [|[k' e'] items IH]; intros w Hlive; [done|].
  simpl map. rewrite exec_seq_cons.
  rewrite IH by (intros e He; apply Hlive; by right).
  rewrite sweep_table. simpl. destruct (_ && _) eqn:Htest; [|done].
  apply expired_test in Htest. apply lookup_delete_ne. intros ->.
  apply (Hlive e'); [left|done].
Qed.


(** ** What the methods leave alone *)

Lemma same_surroundings_refl (w : World) : same_surroundings w w.
Proof. by repeat split. Qed.

Lemma same_surroundings_trans (w1 w2 w3 : World) :
  same_surroundings w1 w2 → same_surroundings w2 w3 → same_surroundings w1 w3.
Proof.
  intros (H1 & H2 & H3 & H4 & H5) (G1 & G2 & G3 & G4 & G5).
  repeat split; congruence.
Qed.

Lemma with_data_with_data d d' (w : World) :
  with_data d (with_data d' w) = with_data d w.
Proof. reflexivity. Qed.

Lemma with_data_table (w : World) : with_data (table w) w = w.
Proof. by destruct w as [[] ? ? ? ? ?]. Qed.

Lemma evictLRU_surroundings (w : World) : same_surroundings w (exec evictLRU w).
Proof. unfold exec. rewrite evictLRU_eq. by destruct (victim w). Qed.

Lemma Set_surroundings key value (w : World) :
  same_surroundings w (exec (Set_ key value) w).
Proof.
  unfold exec at 1. rewrite Set_eq. cbn [snd].
  destruct (Z.of_nat (size (table w)) >=? maxEntries (cache w)); [|done].
  cbv zeta. apply (same_surroundings_trans _ (exec evictLRU w)).
  - apply evictLRU_surroundings.
  - done.
Qed.

Lemma Get_surroundings key (w : World) : same_surroundings w (exec (Get key) w).
Proof.
  unfold exec. destruct (table w !! key) as [e|] eqn:Hk.
  - destruct (decide (expired e (Unix (now w)))) as [Hexp|Hlive].
    + by rewrite (Get_expired _ _ _ Hk Hexp).
    + by rewrite (Get_live _ _ _ Hk Hlive).
  - by rewrite Get_absent.
Qed.

Lemma Delete_surroundings key (w : World) : same_surroundings w (exec (Delete key) w).
Proof. unfold exec. rewrite Delete_eq. by destruct (table w !! key). Qed.

Lemma Expire_surroundings key seconds (w : World) :
  same_surroundings w (exec (Expire key seconds) w).
Proof.
  unfold exec. destruct (table w !! key) as [e|] eqn:Hk.
  - by rewrite (Expire_present _ _ _ _ Hk).
  - by rewrite Expire_absent.
Qed.

(** The loop of [cleanExpired] changes the table and nothing else. *)
Lemma sweeps_world (t : Z) items (w : World) :
  exec (seq_ (map (sweep t) items)) w =
  with_data (table (exec (seq_ (map (sweep t) items)) w)) w.
Proof.
  revert w. induction items as [|item items IH]; intros w.
  - change (exec (seq_ (map (sweep t) [])) w) with w. by rewrite with_data_table.
  - simpl map. rewrite exec_seq_cons.
    assert (exec (sweep t item) w = with_data (table (exec (sweep t item) w)) w) as Hstep.
    { unfold sweep. destruct (_ && _); [done|]. symmetry. apply with_data_table. }
    rewrite IH. rewrite Hstep at 2. by rewrite with_data_with_data.
Qed.

Lemma cleanExpired_table (w : World) :
  table (exec cleanExpired w) =
  filter (λ kv, ¬ expired kv.2 (Unix (now w))) (table w).
Proof.
  unfold cleanExpired. rewrite !exec_bind.
  change (eval time_Now w) with (now w).
  change (exec time_Now w) with (tick w).
  change (eval range_data (tick w)) with (order w).
  change (exec range_data (tick w)) with (ranged (tick w)).
  apply map_eq. intros k.
  destruct (table w !! k) as [e|] eqn:Hk.
  - destruct (decide (expired e (Unix (now w)))) as [Hexp|Hlive].
    + rewrite (sweeps_expired _ _ _ k e) by (by apply elem_of_order || done).
      symmetry. apply map_lookup_filter_None. right. intros e' He'. simpl.
      rewrite Hk in He'. injection He' as <-. tauto.
    + rewrite sweeps_live.
      * wsimpl. rewrite Hk. symmetry. by apply map_lookup_filter_Some.
      * intros e' He'. apply elem_of_order in He'. rewrite Hk in He'.
        by injection He' as <-.
  - rewrite sweeps_absent by done.
    symmetry. apply map_lookup_filter_None. by left.
Qed.

Lemma cleanExpired_world (w : World) :
  exec cleanExpired w =
  with_data (filter (λ kv, ¬ expired kv.2 (Unix (now w))) (table w)) (ranged (tick w)).
Proof.
  rewrite <- cleanExpired_table.
  unfold cleanExpired. rewrite !exec_bind.
  change (eval time_Now w) with (now w).
  change (exec time_Now w) with (tick w).
  change (eval range_data (tick w)) with (order w).
  change (exec range_data (tick w)) with (ranged (tick w)).
  apply sweeps_world.
Qed.

Lemma cleanExpired_surroundings (w : World) : same_surroundings w (exec cleanExpired w).
Proof. by rewrite cleanExpired_world. Qed.

Lemma call_surroundings (c : Call) (w : World) : same_surroundings w (exec (call c) w).
Proof.
  destruct c as [key value|key|key|key seconds|]; simpl call;
    rewrite ?exec_bind; change (exec (ret tt) ?v) with v.
  - apply Set_surroundings.
  - apply Get_surroundings.
  - apply Delete_surroundings.
  - apply Expire_surroundings.
  - apply cleanExpired_surroundings.
Qed.

Lemma calls_surroundings (cs : list Call) (w : World) :
  same_surroundings w (exec (seq_ (map call cs)) w).
Proof.
  revert w. induction cs as [|c cs IH]; intros w; [apply same_surroundings_refl|].
  simpl map. rewrite exec_seq_cons.
  eapply same_surroundings_trans; [apply call_surroundings|apply IH].
Qed.

(** ** The capacity bound under every call *)

Lemma Get_preserves_bounded key (w : World) : bounded w → bounded (exec (Get key) w).
Proof.
  intros [Hsize Hcap Hkeys Hpast Hclock].
  pose proof (Hclock (reads w)) as Hstep1.
  pose proof (Hclock (S (reads w))) as Hstep2.
  unfold exec. destruct (table w !! key) as [e|] eqn:Hk.
  - destruct (decide (expired e (Unix (now w)))) as [Hexp|Hlive].
    + rewrite (Get_expired _ _ _ Hk Hexp). cbn [snd]. split; wsimpl; try done.
      * pose proof (map_size_delete key (table w)) as Hd. rewrite Hk in Hd.
        rewrite Hd. simpl. lia.
      * apply lookup_delete_None. by right.
      * intros k e' [_ Hk']%lookup_delete_Some.
        specialize (Hpast _ _ Hk'). unfold now in *. simpl. lia.
    + rewrite (Get_live _ _ _ Hk Hlive). cbn [snd]. split; wsimpl; try done.
      * by rewrite map_size_insert_Some.
      * rewrite lookup_insert_ne; [done|]. intros ->. congruence.
      * intros k e' [[_ <-]|[_ Hk']]%lookup_insert_Some; unfold now in *; simpl; [lia|].
        specialize (Hpast _ _ Hk'). lia.
  - by rewrite Get_absent.
Qed.

Lemma Delete_preserves_bounded key (w : World) : bounded w → bounded (exec (Delete key) w).
Proof.
  intros [Hsize Hcap Hkeys Hpast Hclock].
  unfold exec. rewrite Delete_eq. destruct (table w !! key) as [e|] eqn:Hk; [|done].
  cbn [snd]. split; wsimpl; try done.
  - pose proof (map_size_delete key (table w)) as Hd. rewrite Hk in Hd.
    rewrite Hd. simpl. lia.
  - apply lookup_delete_None. by right.
  - intros k e' [_ Hk']%lookup_delete_Some. by apply (Hpast k).
Qed.

Lemma Expire_preserves_bounded key seconds (w : World) :
  bounded w → bounded (exec (Expire key seconds) w).
Proof.
  intros [Hsize Hcap Hkeys Hpast Hclock].
  pose proof (Hclock (reads w)) as Hstep.
  unfold exec. destruct (table w !! key) as [e|] eqn:Hk.
  - rewrite (Expire_present _ _ _ _ Hk). cbn [snd]. split; wsimpl; try done.
    + by rewrite map_size_insert_Some.
    + rewrite lookup_insert_ne; [done|]. intros ->. congruence.
    + intros k e' [[_ <-]|[_ Hk']]%lookup_insert_Some; unfold now in *; simpl.
      * specialize (Hpast _ _ Hk). lia.
      * specialize (Hpast _ _ Hk'). lia.
  - by rewrite Expire_absent.
Qed.

Lemma cleanExpired_preserves_bounded (w : World) :
  bounded w → bounded (exec cleanExpired w).
Proof.
  intros [Hsize Hcap Hkeys Hpast Hclock].
  pose proof (Hclock (reads w)) as Hstep.
  rewrite cleanExpired_world. split; wsimpl; try done.
  - pose proof (map_size_filter (λ kv : string * CacheEntry, ¬ expired kv.2 (Unix (now w)))
                  (table w)) as Hle. simpl. lia.
  - apply map_lookup_filter_None. by left.
  - intros k e [Hk _]%map_lookup_filter_Some.
    specialize (Hpast _ _ Hk). unfold now in *. simpl. lia.
Qed.

Lemma call_preserves_bounded (c : Call) (w : World) :
  ¬ writes_empty_key c → bounded w → bounded (exec (call c) w).
Proof.
  intros Hkey Hb.
  destruct c as [key value|key|key|key seconds|]; simpl call;
    rewrite ?exec_bind; change (exec (ret tt) ?v) with v.
  - by apply Set_preserves_bounded.
  - by apply Get_preserves_bounded.
  - by apply Delete_preserves_bounded.
  - by apply Expire_preserves_bounded.
  - by apply cleanExpired_preserves_bounded.
Qed.

Lemma calls_preserve_bounded (cs : list Call) (w : World) :
  Forall (λ c, ¬ writes_empty_key c) cs → bounded w →
  bounded (exec (seq_ (map call cs)) w).
Proof.
  revert w. induction cs as [|c cs IH]; intros w Hkeys Hb; [done|].
  apply Forall_cons in Hkeys as [Hc Hkeys]. simpl map. rewrite exec_seq_cons.
  apply IH; [done|]. by apply call_preserves_bounded.
Qed.

(** ** Copies of the table *)

Lemma foldl_insert_list_to_map (l : list (string * CacheEntry)) :
  foldl (λ (copy : gmap string CacheEntry) item, <[item.1 := item.2]> copy) ∅ l
  = list_to_map (reverse l).
Proof.
  induction l as [|x l IH] using rev_ind; [done|].
  by rewrite foldl_app, reverse_snoc, IH.
Qed.

Lemma ExportData_eq (w : World) : ExportData w = (table w, ranged w).
Proof.
  unfold ExportData, bind, range_data, ret. f_equal.
  rewrite foldl_insert_list_to_map.
  etrans; [|apply list_to_map_to_list].
  apply list_to_map_proper.
  - rewrite reverse_Permutation. unfold order. rewrite shuffle_Permutation.
    apply NoDup_fst_map_to_list.
  - rewrite reverse_Permutation. apply shuffle_Permutation.
Qed.

(** ** Writing the log *)

Lemma table_with_fs files (w : World) : table (with_fs files w) = table w.
Proof. reflexivity. Qed.

Lemma with_fs_with_fs files files' (w : World) :
  with_fs files (with_fs files' w) = with_fs files w.
Proof. reflexivity. Qed.

Lemma log_of_snoc (recs : list LogEntry) (r : LogEntry) :
  Readable (map Rec recs ++ [Rec r]) = log_of (recs ++ [r]).
Proof. unfold log_of. by rewrite map_app. Qed.

Lemma Encode_appends (h : Host) filename (r r' : LogEntry) recs (w : World) :
  fs w !! filename = Some (log_of recs) → appends h filename r r' →
  Encode h filename r w
  = (None, with_fs (<[filename := log_of (recs ++ [r'])]> (fs w)) w).
Proof.
  intros Hfile Happ. unfold Encode. rewrite Hfile. unfold log_of at 1.
  by rewrite Happ, log_of_snoc.
Qed.

Lemma writeEntries_appends (h : Host) filename (back : LogEntry → LogEntry)
    items recs (w : World) :
  fs w !! filename = Some (log_of recs) →
  Forall (λ item, appends h filename (logged item) (back (logged item))) items →
  writeEntries h filename items w =
  (None, with_fs (<[filename := log_of (recs ++ map (λ item, back (logged item)) items)]>
                    (fs w)) w).
Proof.
  revert recs w. induction items as [|[key entry] items IH]; intros recs w Hfile Hok.
  - simpl. rewrite app_nil_r, insert_id by done. by destruct w.
  - apply Forall_cons in Hok as [Hitem Hok].
    simpl writeEntries. unfold bind.
    change (mkLogEntry "SET" key (Value entry) (ExpiresAt entry) (LastAccess entry))
      with (logged (key, entry)).
    rewrite (Encode_appends h filename _ _ recs w Hfile Hitem).
    rewrite (IH (recs ++ [back (logged (key, entry))])%list).
    + cbn [fs with_fs]. rewrite insert_insert_eq, with_fs_with_fs.
      simpl map. by rewrite <- app_assoc.
    + apply lookup_insert_eq.
    + done.
Qed.

Lemma writeEntries_fails (h : Host) filename (back : LogEntry → LogEntry)
    pre item post err file recs (w : World) :
  fs w !! filename = Some (log_of recs) →
  Forall (λ item, appends h filename (logged item) (back (logged item))) pre →
  json_Encode h filename (Some (log_of (recs ++ map (λ item, back (logged item)) pre)))
              (logged item) = (Some err, file) →
  writeEntries h filename (pre ++ item :: post) w =
  (Some ("error al escribir entrada: " +:+ err),
   with_fs (<[filename := file]> (fs w)) w).
Proof.
  revert recs w. induction pre as [|[key entry] pre IH]; intros recs w Hfile Hok Herr.
  - destruct item as [key entry]. simpl in Herr. rewrite app_nil_r in Herr.
    simpl. unfold bind, Encode. rewrite Hfile.
    change (mkLogEntry "SET" key (Value entry) (ExpiresAt entry) (LastAccess entry))
      with (logged (key, entry)).
    by rewrite Herr.
  - apply Forall_cons in Hok as [Hitem Hok].
    rewrite <- app_comm_cons. simpl writeEntries. unfold bind.
    change (mkLogEntry "SET" key (Value entry) (ExpiresAt entry) (LastAccess entry))
      with (logged (key, entry)).
    rewrite (Encode_appends h filename _ _ recs w Hfile Hitem).
    rewrite (IH (recs ++ [back (logged (key, entry))])%list).
    + cbn [fs with_fs]. by rewrite insert_insert_eq, with_fs_with_fs.
    + apply lookup_insert_eq.
    + done.
    + simpl map in Herr. by rewrite <- app_assoc.
Qed.

Lemma SaveToLog_not_opened (h : Host) filename err (w : World) :
  let path := if (filename =? "")%string then DefaultLogFile else filename in
  os_OpenFile h path (fs w !! path) = inl err →
  SaveToLog h filename w = (Some ("error al abrir archivo de log: " +:+ err), w).
Proof.
  intros path Hopen. unfold SaveToLog. fold path.
  unfold bind, OpenFile. by rewrite Hopen.
Qed.

Lemma SaveToLog_opened (h : Host) filename file (w : World) :
  let path := if (filename =? "")%string then DefaultLogFile else filename in
  os_OpenFile h path (fs w !! path) = inr file →
  SaveToLog h filename w =
  writeEntries h path (order (ranged w))
               (with_fs (<[path := file]> (fs w)) (ranged (ranged w))).
Proof.
  intros path Hopen. unfold SaveToLog. fold path.
  unfold bind at 1. unfold OpenFile. rewrite Hopen.
  unfold bind. by rewrite ExportData_eq.
Qed.

Lemma elem_of_save_order (w : World) k e :
  (k, e) ∈ order (ranged w) ↔ table w !! k = Some e.
Proof. apply (elem_of_order (ranged w)). Qed.

(** ** Replay on the values of the table *)

Lemma unit_bind_ret (m : M unit) (w : World) : (m ;;; ret tt) w = m w.
Proof. unfold bind, ret. by destruct (m w) as [[] w']. Qed.

Lemma Set_contents key value (w : World) :
  Z.of_nat (size (table w)) < maxEntries (cache w) →
  contents (exec (Set_ key value) w) = <[key := value]> (contents w) ∧
  (size (table (exec (Set_ key value) w)) ≤ S (size (table w)))%nat.
Proof.
  intros Hroom. unfold contents. rewrite Set_table_below_capacity by done. split.
  - by rewrite fmap_insert.
  - rewrite map_size_insert. destruct (table w !! key); simpl; lia.
Qed.

Lemma Delete_contents key (w : World) :
  contents (exec (Delete key) w) = delete key (contents w) ∧
  (size (table (exec (Delete key) w)) ≤ size (table w))%nat.
Proof.
  unfold contents, exec. rewrite Delete_eq.
  destruct (table w !! key) as [e|] eqn:Hk; cbn [snd]; wsimpl.
  - split; [by rewrite fmap_delete|].
    pose proof (map_size_delete key (table w)) as Hd. rewrite Hk in Hd. rewrite Hd.
    simpl. lia.
  - split; [|done]. rewrite <- fmap_delete. by rewrite delete_id.
Qed.

Lemma Expire_contents key seconds (w : World) :
  contents (exec (Expire key seconds) w) = contents w ∧
  size (table (exec (Expire key seconds) w)) = size (table w).
Proof.
  unfold contents, exec. destruct (table w !! key) as [e|] eqn:Hk.
  - rewrite (Expire_present _ _ _ _ Hk). cbn [snd]. wsimpl. split.
    + rewrite fmap_insert. apply insert_id. by rewrite lookup_fmap, Hk.
    + by apply map_size_insert_Some.
  - by rewrite Expire_absent.
Qed.

(** One record of the log, on a table that has room if the record is a
    [SET]: the values change as [replayed] says, whatever the clock. *)
Lemma applyEntry_contents (r : LogEntry) (w : World) :
  (Operation r = "SET" → Z.of_nat (size (table w)) < maxEntries (cache w)) →
  let w' := exec (applyEntry r) w in
  contents w' = replayed (contents w) r ∧
  (size (table w') ≤ size (table w) + count_sets [r])%nat ∧
  same_surroundings w w'.
Proof.
  intros Hroom w'. subst w'. unfold applyEntry, replayed, count_sets.
  destruct (String.eqb_spec (Operation r) "SET") as [Hset|Hset].
  - rewrite filter_cons_True, filter_nil by done. simpl length.
    destruct (Set_contents (Key r) (LogValue r) w (Hroom Hset)) as [Hc Hs].
    pose proof (Set_surroundings (Key r) (LogValue r) w) as Hsur.
    rewrite exec_bind. set (w1 := exec (Set_ (Key r) (LogValue r)) w) in *.
    cbv beta zeta.
    destruct (LogExpiresAt r >? 0);
      [|change (exec (ret tt) w1) with w1; split; [done|split; [lia|done]]].
    destruct (wrap64 (LogExpiresAt r - Timestamp r) >? 0);
      [|change (exec (ret tt) w1) with w1; split; [done|split; [lia|done]]].
    rewrite exec_bind. change (exec (ret tt) ?v) with v.
    destruct (Expire_contents (Key r) (wrap64 (LogExpiresAt r - Timestamp r)) w1) as [Hc' Hs'].
    split; [congruence|]. split; [lia|].
    eapply same_surroundings_trans; [exact Hsur|apply Expire_surroundings].
  - rewrite filter_cons_False, filter_nil by done. simpl length.
    destruct (String.eqb_spec (Operation r) "DEL") as [Hdel|Hdel].
    + rewrite exec_bind. change (exec (ret tt) ?v) with v.
      destruct (Delete_contents (Key r) w) as [Hc Hs].
      split; [done|]. split; [lia|apply Delete_surroundings].
    + destruct (String.eqb_spec (Operation r) "EXPIRE") as [Hexp|Hexp].
      * cbv zeta. destruct (wrap64 (LogExpiresAt r - Timestamp r) >? 0).
        -- rewrite exec_bind. change (exec (ret tt) ?v) with v.
           destruct (Expire_contents (Key r) (wrap64 (LogExpiresAt r - Timestamp r)) w)
             as [Hc Hs].
           split; [done|]. split; [lia|apply Expire_surroundings].
        -- change (exec (ret tt) w) with w.
           split; [done|]. split; [lia|apply same_surroundings_refl].
      * change (exec (ret tt) w) with w.
        split; [done|]. split; [lia|apply same_surroundings_refl].
Qed.

Lemma count_sets_cons (r : LogEntry) (recs : list LogEntry) :
  count_sets (r :: recs) = (count_sets [r] + count_sets recs)%nat.
Proof.
  unfold count_sets. destruct (decide (Operation r = "SET")).
  - by rewrite !filter_cons_True by done.
  - by rewrite !filter_cons_False by done.
Qed.

Lemma applied_contents (recs : list LogEntry) (w : World) :
  Z.of_nat (size (table w) + count_sets recs) ≤ maxEntries (cache w) →
  let w' := exec (seq_ (map applyEntry recs)) w in
  contents w' = foldl replayed (contents w) recs ∧
  (size (table w') ≤ size (table w) + count_sets recs)%nat ∧
  same_surroundings w w'.
Proof.
  revert w. induction recs as [|r recs IH]; intros w Hroom.
  - cbv zeta. change (exec (seq_ (map applyEntry [])) w) with w.
    split; [done|]. split; [lia|apply same_surroundings_refl].
  - rewrite count_sets_cons in Hroom. simpl map. cbv zeta. rewrite exec_seq_cons.
    destruct (applyEntry_contents r w) as (Hc & Hs & Hsur).
    { intros Hset. unfold count_sets in Hroom at 1.
      rewrite filter_cons_True, filter_nil in Hroom by done. simpl in Hroom. lia. }
    set (w1 := exec (applyEntry r) w) in *.
    destruct (IH w1) as (Hc' & Hs' & Hsur').
    { destruct Hsur as [-> _]. lia. }
    split; [by rewrite Hc'; simpl; rewrite Hc|].
    split; [rewrite count_sets_cons; lia|].
    eapply same_surroundings_trans; eauto.
Qed.

(** Replaying a log on values twice is replaying it once. *)
Lemma replayed_lookup (r : LogEntry) (m m' : gmap string any) k :
  m !! k = m' !! k → replayed m r !! k = replayed m' r !! k.
Proof.
  intros Hk. unfold replayed.
  destruct (Operation r =? "SET")%string.
  - destruct (decide (Key r = k)) as [->|Hne];
      [by rewrite !lookup_insert_eq|by rewrite !lookup_insert_ne].
  - destruct (Operation r =? "DEL")%string; [|done].
    destruct (decide (Key r = k)) as [->|Hne];
      [by rewrite !lookup_delete_eq|by rewrite !lookup_delete_ne].
Qed.

Lemma foldl_replayed_lookup (recs : list LogEntry) (m m' : gmap string any) k :
  m !! k = m' !! k → foldl replayed m recs !! k = foldl replayed m' recs !! k.
Proof.
  revert m m'. induction recs as [|r recs IH]; intros m m' Hk; [done|].
  simpl. apply IH. by apply replayed_lookup.
Qed.

Lemma replayed_absorbs (r : LogEntry) (recs : list LogEntry) (m : gmap string any) :
  replayed (foldl replayed (replayed m r) recs) r = replayed (foldl replayed m recs) r.
Proof.
  apply map_eq. intros k. unfold replayed.
  destruct (Operation r =? "SET")%string.
  - destruct (decide (Key r = k)) as [->|Hne]; [by rewrite !lookup_insert_eq|].
    rewrite !lookup_insert_ne by done.
    apply foldl_replayed_lookup. by rewrite lookup_insert_ne.
  - destruct (Operation r =? "DEL")%string; [|done].
    destruct (decide (Key r = k)) as [->|Hne]; [by rewrite !lookup_delete_eq|].
    rewrite !lookup_delete_ne by done.
    apply foldl_replayed_lookup. by rewrite lookup_delete_ne.
Qed.

Lemma foldl_replayed_twice (recs : list LogEntry) (m : gmap string any) :
  foldl replayed (foldl replayed m recs) recs = foldl replayed m recs.
Proof.
  revert m. induction recs as [|r recs IH] using rev_ind; intros m; [done|].
  rewrite !foldl_app. simpl. rewrite replayed_absorbs. by rewrite IH.
Qed.

(** ** Entries restored one by one *)

(** With the expiration not above the stamp, the time left that the
    loaders compute is not positive, and no expiration is restored. *)
Lemma restored_expiry_stale (e : CacheEntry) (t : Z) :
  ExpiresAt e ≤ LastAccess e → LastAccess e ≤ max_int64 → restored_expiry e t = 0.
Proof.
  intros Hle Hfit. unfold restored_expiry, time_left.
  destruct (Z.gtb_spec (ExpiresAt e) 0) as [Hpos|]; [|done].
  rewrite wrap64_id by (unfold is_int64, min_int64, max_int64 in *; lia).
  by destruct (Z.gtb_spec (ExpiresAt e - LastAccess e) 0); [lia|].
Qed.

Lemma restored_expiry_left (e : CacheEntry) (t : Z) :
  0 < ExpiresAt e → 0 < wrap64 (ExpiresAt e - LastAccess e) →
  restored_expiry e t = wrap64 (t + wrap64 (ExpiresAt e - LastAccess e)).
Proof.
  intros Hpos Hleft. unfold restored_expiry, time_left.
  destruct (Z.gtb_spec (ExpiresAt e) 0); [|lia].
  by destruct (Z.gtb_spec (wrap64 (ExpiresAt e - LastAccess e)) 0); [|lia].
Qed.

(** What the replay loop does with a [SET] record is what the snapshot
    loop does with the entry of the same fields. *)
Lemma applyEntry_SET key value x stamp :
  applyEntry (mkLogEntry "SET" key value x stamp)
  = restoreEntry (key, mkEntry value x stamp).
Proof. reflexivity. Qed.

(** One entry restored into a table with room: its key holds its value,
    with the expiration that [Expire] computes at the second reading of
    the clock if it is called, and none otherwise; nothing else changes. *)
Lemma restoreEntry_table (item : string * CacheEntry) (w : World) :
  Z.of_nat (size (table w)) < maxEntries (cache w) →
  let w' := exec (restoreEntry item) w in
  (∃ e', table w' = <[item.1 := e']> (table w) ∧ Value e' = Value item.2 ∧
         ExpiresAt e' = restored_expiry item.2 (Unix (clock w (S (reads w))))) ∧
  same_surroundings w w' ∧ (reads w < reads w')%nat.
Proof.
  intros Hroom w'. subst w'. destruct item as [key entry]. cbn [fst snd].
  pose proof (Set_surroundings key (Value entry) w) as Hsur.
  pose proof (Set_table_below_capacity key (Value entry) w Hroom) as Htab.
  pose proof (Set_reads_below_capacity key (Value entry) w Hroom) as Hreads.
  unfold restoreEntry, restored_expiry, time_left. cbn [fst snd]. rewrite !exec_bind.
  set (w1 := exec (Set_ key (Value entry)) w) in *.
  destruct (ExpiresAt entry >? 0);
    [|change (exec (ret tt) w1) with w1; split; [|split; [done|lia]];
      eexists; split; [exact Htab|]; done].
  cbv zeta. destruct (wrap64 (ExpiresAt entry - LastAccess entry) >? 0);
    [|change (exec (ret tt) w1) with w1; split; [|split; [done|lia]];
      eexists; split; [exact Htab|]; done].
  rewrite exec_bind. change (exec (ret tt) ?v) with v.
  assert (Expire key (wrap64 (ExpiresAt entry - LastAccess entry)) w1 =
          (true, with_data
                   (<[key := mkEntry (Value entry)
                               (wrap64 (Unix (clock w (S (reads w)))
                                        + wrap64 (ExpiresAt entry - LastAccess entry)))
                               (now w)]> (table w))
                   (tick w1))) as Hexpire.
  { erewrite Expire_present; [|rewrite Htab; apply lookup_insert_eq].
    rewrite Htab, insert_insert_eq. unfold now at 1. rewrite Hreads.
    destruct Hsur as (_ & _ & _ & -> & _). done. }
  assert (exec (Expire key (wrap64 (ExpiresAt entry - LastAccess entry))) w1 =
          with_data
            (<[key := mkEntry (Value entry)
                        (wrap64 (Unix (clock w (S (reads w)))
                                 + wrap64 (ExpiresAt entry - LastAccess entry)))
                        (now w)]> (table w))
            (tick w1)) as ->.
  { unfold exec. by rewrite Hexpire. }
  wsimpl. split; [|split].
  - eexists. split; [done|]. done.
  - eapply same_surroundings_trans; [exact Hsur|]. done.
  - rewrite Hreads. lia.
Qed.

Lemma restoreEntries_present (items : list (string * CacheEntry)) (w : World) :
  restoreEntries (map present items) w
  = (Returned None, exec (seq_ (map restoreEntry items)) w).
Proof.
  revert w. induction items as [|[key entry] items IH]; intros w; [done|].
  simpl map. rewrite exec_seq_cons. simpl restoreEntries. unfold bind.
  unfold exec at 2. destruct (restoreEntry (key, entry) w) as [[] w1]. apply IH.
Qed.

Lemma restoreEntries_nil_entry (pre : list (string * CacheEntry)) key post (w : World) :
  restoreEntries (map present pre ++ (key, None) :: post) w
  = (Panicked, exec (seq_ (map restoreEntry pre)) w).
Proof.
  revert w. induction pre as [|[k e] pre IH]; intros w; [done|].
  simpl map. rewrite exec_seq_cons. simpl restoreEntries. unfold bind.
  unfold exec at 2. destruct (restoreEntry (k, e) w) as [[] w1]. apply IH.
Qed.

Lemma restoreEntries_panics (items : list (string * option CacheEntry)) key (w : World) :
  (key, None) ∈ items → eval (restoreEntries items) w = Panicked.
Proof.
  revert w. induction items as [|[k [e|]] items IH]; intros w Hin.
  - by apply elem_of_nil in Hin.
  - apply elem_of_cons in Hin as [[=]|Hin].
    simpl restoreEntries. unfold eval, bind.
    destruct (restoreEntry (k, e) w) as [[] w1]. by apply IH.
  - done.
Qed.

(** A list of snapshot entries that are all there is a list of entries. *)
Lemma all_present (items : list (string * option CacheEntry)) :
  (∀ k, (k, None) ∉ items) → ∃ items', items = map present items'.
Proof.
  induction items as [|[k [e|]] items IH]; intros Hall.
  - by exists [].
  - destruct IH as [items' ->].
    { intros k' Hin. apply (Hall k'). by right. }
    by exists ((k, e) :: items').
  - destruct (Hall k). left.
Qed.

(** Entries with distinct keys restored into a table with room for them,
    in whatever order: every key comes to hold its value, with the
    expiration restored at some later reading of the clock, and every
    other key is as it was. *)
Lemma restored (items : list (string * CacheEntry)) (w : World) :
  NoDup items.*1 →
  Z.of_nat (size (table w)) + Z.of_nat (length items) ≤ maxEntries (cache w) →
  let w' := exec (seq_ (map restoreEntry items)) w in
  (∀ k, k ∉ items.*1 → table w' !! k = table w !! k) ∧
  (∀ k e, (k, e) ∈ items →
     ∃ e' n, table w' !! k = Some e' ∧ Value e' = Value e ∧ (reads w < n)%nat ∧
             ExpiresAt e' = restored_expiry e (Unix (clock w n))) ∧
  same_surroundings w w' ∧ (reads w ≤ reads w')%nat.
Proof.
  revert w. induction items as [|[k0 e0] items IH]; intros w Hdup Hroom.
  - cbv zeta. change (exec (seq_ (map restoreEntry [])) w) with w.
    split; [done|]. split; [|split; [apply same_surroundings_refl|done]].
    intros k e Hin. by apply elem_of_nil in Hin.
  - simpl in Hdup. apply NoDup_cons in Hdup as [Hk0 Hdup].
    simpl length in Hroom. simpl map. cbv zeta. rewrite exec_seq_cons.
    destruct (restoreEntry_table (k0, e0) w)
      as ((e1 & Htab & Hval & Hexp) & Hsur & Hreads); [lia|].
    cbn [fst snd] in *.
    set (w1 := exec (restoreEntry (k0, e0)) w) in *.
    assert (Z.of_nat (size (table w1)) ≤ Z.of_nat (size (table w)) + 1) as Hsize.
    { rewrite Htab, map_size_insert. destruct (table w !! k0); simpl; lia. }
    destruct (IH w1) as (Hother & Hin & Hsur' & Hreads'); [done| |].
    { destruct Hsur as [-> _]. lia. }
    split; [|split; [|split]].
    + intros k Hk. apply not_elem_of_cons in Hk as [Hne Hk].
      rewrite Hother by done. rewrite Htab. by rewrite lookup_insert_ne.
    + intros k e Hke. apply elem_of_cons in Hke as [[= -> ->]|Hke].
      * exists e1, (S (reads w)). split; [|split; [done|split; [lia|done]]].
        rewrite Hother by done. rewrite Htab. apply lookup_insert_eq.
      * destruct (Hin k e Hke) as (e' & n & He' & Hval' & Hn & Hexp').
        exists e', n. split; [done|]. split; [done|]. split; [lia|].
        destruct Hsur as (_ & _ & _ & Hclock & _). by rewrite <- Hclock.
    + eapply same_surroundings_trans; eauto.
    + lia.
Qed.

(** ** Logging switched on *)

(** No method of the engine reads [logFile] to any effect: a call does
    the same in a world that differs only by the configured log file. *)
Lemma evictLRU_with_logFile filename (w : World) :
  evictLRU (with_logFile filename w) = (tt, with_logFile filename (exec evictLRU w)).
Proof.
  unfold exec. rewrite !evictLRU_eq. cbn [snd].
  change (victim (with_logFile filename w)) with (victim w).
  by destruct (victim w).
Qed.

Lemma Set_with_logFile filename key value (w : World) :
  Set_ key value (with_logFile filename w) =
  (tt, with_logFile filename (exec (Set_ key value) w)).
Proof.
  unfold exec at 1. rewrite !Set_eq. cbn [snd].
  change (table (with_logFile filename w)) with (table w).
  change (maxEntries (cache (with_logFile filename w))) with (maxEntries (cache w)).
  destruct (Z.of_nat (size (table w)) >=? maxEntries (cache w)); [|done].
  cbv zeta.
  assert (exec evictLRU (with_logFile filename w)
          = with_logFile filename (exec evictLRU w)) as ->.
  { unfold exec at 1. by rewrite evictLRU_with_logFile. }
  done.
Qed.

Lemma Get_with_logFile filename key (w : World) :
  Get key (with_logFile filename w) =
  (eval (Get key) w, with_logFile filename (exec (Get key) w)).
Proof.
  unfold eval, exec, Get, bind, load, time_Now, remove, store, ret.
  change (table (with_logFile filename w)) with (table w).
  destruct (table w !! key) as [e|]; [|done].
  change (now (with_logFile filename w)) with (now w).
  by destruct (_ && _).
Qed.

Lemma Delete_with_logFile filename key (w : World) :
  Delete key (with_logFile filename w) =
  (eval (Delete key) w, with_logFile filename (exec (Delete key) w)).
Proof.
  unfold eval, exec. rewrite !Delete_eq.
  change (table (with_logFile filename w)) with (table w).
  by destruct (table w !! key).
Qed.

Lemma Expire_with_logFile filename key seconds (w : World) :
  Expire key seconds (with_logFile filename w) =
  (eval (Expire key seconds) w, with_logFile filename (exec (Expire key seconds) w)).
Proof.
  unfold eval, exec, Expire, bind, load, time_Now, store, ret.
  change (table (with_logFile filename w)) with (table w).
  by destruct (table w !! key).
Qed.

Lemma sweeps_with_logFile filename (t : Z) items (w : World) :
  seq_ (map (sweep t) items) (with_logFile filename w) =
  (tt, with_logFile filename (exec (seq_ (map (sweep t) items)) w)).
Proof.
  revert w. induction items as [|item items IH]; intros w; [done|].
  simpl map. rewrite exec_seq_cons. simpl seq_. unfold bind at 1.
  assert (sweep t item (with_logFile filename w) =
          (tt, with_logFile filename (exec (sweep t item) w))) as ->.
  { unfold sweep. by destruct (_ && _). }
  apply IH.
Qed.

Lemma cleanExpired_with_logFile filename (w : World) :
  cleanExpired (with_logFile filename w) =
  (tt, with_logFile filename (exec cleanExpired w)).
Proof.
  unfold cleanExpired. rewrite !exec_bind.
  unfold bind at 1 2, time_Now, range_data.
  change (now (with_logFile filename w)) with (now w).
  change (tick (with_logFile filename w)) with (with_logFile filename (tick w)).
  change (order (with_logFile filename (tick w))) with (order w).
  change (ranged (with_logFile filename (tick w)))
    with (with_logFile filename (ranged (tick w))).
  apply sweeps_with_logFile.
Qed.

Lemma call_with_logFile filename (c : Call) (w : World) :
  exec (call c) (with_logFile filename w) = with_logFile filename (exec (call c) w).
Proof.
  destruct c as [key value|key|key|key seconds|]; simpl call;
    rewrite ?exec_bind; change (exec (ret tt) ?v) with v; unfold exec at 1.
  - by rewrite Set_with_logFile.
  - by rewrite Get_with_logFile.
  - by rewrite Delete_with_logFile.
  - by rewrite Expire_with_logFile.
  - by rewrite cleanExpired_with_logFile.
Qed.

Lemma calls_with_logFile filename (cs : list Call) (w : World) :
  exec (seq_ (map call cs)) (with_logFile filename w) =
  with_logFile filename (exec (seq_ (map call cs)) w).
Proof.
  revert w. induction cs as [|c cs IH]; intros w; [done|].
  simpl map. by rewrite !exec_seq_cons, call_with_logFile, IH.
Qed.

(** ** Records the loop has no case for *)

Lemma applyEntry_unknown (r : LogEntry) (w : World) :
  ¬ known_operation r → applyEntry r w = (tt, w).
Proof.
  unfold known_operation, applyEntry. intros Hr.
  destruct (String.eqb_spec (Operation r) "SET"); [tauto|].
  destruct (String.eqb_spec (Operation r) "DEL"); [tauto|].
  destruct (String.eqb_spec (Operation r) "EXPIRE"); [tauto|]. done.
Qed.

Lemma applied_known (recs : list LogEntry) (w : World) :
  exec (seq_ (map applyEntry recs)) w =
  exec (seq_ (map applyEntry (filter known_operation recs))) w.
Proof.
  revert w. induction recs as [|r recs IH]; intros w; [done|].
  destruct (decide (known_operation r)) as [Hr|Hr].
  - rewrite filter_cons_True by done. simpl map. by rewrite !exec_seq_cons, IH.
  - rewrite filter_cons_False by done. simpl map. rewrite exec_seq_cons.
    unfold exec at 2. rewrite applyEntry_unknown by done. apply IH.
Qed.

(** * The claims *)

(** C1 (overwrite at full capacity).  The claim asks that a [Set] of a key
    already in a full table evicts nothing.  [Set] tests
    [len(c.data) >= c.maxEntries] before it looks at the key, so the
    overwrite runs [evictLRU]: in an engine of capacity 2 holding "a" and
    "b", writing "b" again deletes "a" and leaves one entry. *)
Theorem Set_overwrite_at_capacity_evicts :
  let w := exec (Set_ "a" (Int 1) ;;; Set_ "b" (Int 2))
                (boot (NewCacheEngine 2) 1000 1000 []) in
  let w' := exec (Set_ "b" (Int 3)) w in
  eval Size w = eval MaxEntries w ∧
  table w !! "a" = Some (mkEntry (Int 1) 0 1000) ∧
  table w !! "b" = Some (mkEntry (Int 2) 0 2000) ∧
  table w' !! "a" = None ∧
  eval Size w' = 1.
Proof. vm_compute. done. Qed.

(** The same in general: when the table is full and [evictLRU] picks an
    entry other than the one being overwritten, the overwrite deletes that
    entry and the table ends one entry short of its bound. *)
Lemma Set_overwrite_at_capacity_drops_victim key value k (w : World) :
  is_Some (table w !! key) →
  Z.of_nat (size (table w)) = maxEntries (cache w) →
  victim w = Some k → k ≠ key →
  table (exec (Set_ key value) w) !! k = None ∧
  size (table (exec (Set_ key value) w)) = Nat.pred (size (table w)).
Proof.
  intros Hkey Hfull Hv Hne.
  destruct (victim_Some w k Hv) as (_ & e & Hk & _).
  rewrite Set_table_at_capacity, evictLRU_table, Hv by lia. split.
  - rewrite lookup_insert_ne by done. apply lookup_delete_eq.
  - rewrite map_size_insert_Some by (by rewrite lookup_delete_ne).
    by apply map_size_delete_Some.
Qed.

(** C2 (capacity invariant).  The claim asks for [Size() ≤ Capacity()]
    after every [Set] of a run with distinct keys.  [evictLRU] uses the
    empty string both as "nothing found" and as a key, so an entry stored
    under "" is never deleted: with capacity 1, [Set("", _)] followed by
    [Set("a", _)] leaves two entries. *)
Theorem Set_distinct_keys_exceeds_capacity :
  let w := exec (Set_ "" (Int 1) ;;; Set_ "a" (Int 2))
                (boot (NewCacheEngine 1) 1000 1000 []) in
  eval Size w = 2 ∧ eval MaxEntries w = 1 ∧
  table w !! "" = Some (mkEntry (Int 1) 0 1000) ∧
  table w !! "a" = Some (mkEntry (Int 2) 0 3000).
Proof. vm_compute. done. Qed.

(** C3 (LRU order).  The claim asks that, after N inserts into an engine
    of capacity N and a [Get] of all keys but one, one more insert evicts
    the untouched key.  When the untouched key is "" nothing is evicted:
    with capacity 2, after [Set("", _)], [Set("a", _)], [Get("a")] and
    [Set("b", _)], the entry of "" is still there, beside "a" and "b". *)
Theorem Set_after_touches_keeps_untouched_empty_key :
  let w := exec (Set_ "" (Int 0) ;;; Set_ "a" (Int 1) ;;; Get "a" ;;; Set_ "b" (Int 2))
                (boot (NewCacheEngine 2) 1000 1000 []) in
  eval (Get "") w = (Int 0, true) ∧
  eval (Get "a") w = (Int 1, true) ∧
  eval (Get "b") w = (Int 2, true) ∧
  eval Size w = 3 ∧ eval MaxEntries w = 2.
Proof. vm_compute. done. Qed.

(** C4 ([Get]).  An absent key is reported absent and nothing changes, not
    even the clock being read.  A present entry whose [ExpiresAt] is set
    (positive) and not after the current second, the reading of the clock
    divided by [10^9], is deleted and reported absent.  Any other present
    entry keeps its value and its expiration and has its [LastAccess] set
    to the next reading of the clock, in nanoseconds; its value is
    returned with [found = true], and the rest of the table stays as it
    was. *)
Theorem Get_spec (key : string) (w : World) :
  (table w !! key = None → Get key w = ((Nil, false), w)) ∧
  (∀ e, table w !! key = Some e →
        0 < ExpiresAt e ∧ ExpiresAt e ≤ clock w (reads w) `div` 1000000000 →
        eval (Get key) w = (Nil, false) ∧
        table (exec (Get key) w) = delete key (table w)) ∧
  (∀ e, table w !! key = Some e →
        ¬ (0 < ExpiresAt e ∧ ExpiresAt e ≤ clock w (reads w) `div` 1000000000) →
        eval (Get key) w = (Value e, true) ∧
        table (exec (Get key) w) =
          <[key := {| Value := Value e; ExpiresAt := ExpiresAt e;
                      LastAccess := clock w (S (reads w)) |}]> (table w)).
Proof.
  split; [|split].
  - apply Get_absent.
  - intros e Hk Hexp. unfold eval, exec. by rewrite (Get_expired _ _ _ Hk Hexp).
  - intros e Hk Hlive. unfold eval, exec. by rewrite (Get_live _ _ _ Hk Hlive).
Qed.

Lemma Get_spec_witness :
  let w := mkWorld (mkEngine (<["old" := mkEntry (Str "x") 7 1]> {["k" := mkEntry (Str "v") 8 1]}) 10 "")
                   ∅ (λ n, 7999999999 + Z.of_nat n) 0 (λ _, []) 0 in
  Get "none" w = ((Nil, false), w) ∧
  (eval (Get "old") w = (Nil, false) ∧
   table (exec (Get "old") w) = {["k" := mkEntry (Str "v") 8 1]}) ∧
  (eval (Get "k") w = (Str "v", true) ∧
   table (exec (Get "k") w) =
     <["old" := mkEntry (Str "x") 7 1]> {["k" := mkEntry (Str "v") 8 8000000000]}).
Proof.
  intros w.
  destruct (Get_spec "none" w) as (Habsent & _ & _).
  destruct (Get_spec "old" w) as (_ & Hexpired & _).
  destruct (Get_spec "k" w) as (_ & _ & Hlive).
  split; [|split].
  - apply Habsent. reflexivity.
  - destruct (Hexpired (mkEntry (Str "x") 7 1)) as [Hret Htab].
    + reflexivity.
    + vm_compute. split; [reflexivity|discriminate].
    + split; [exact Hret|]. rewrite Htab. reflexivity.
  - destruct (Hlive (mkEntry (Str "v") 8 1)) as [Hret Htab].
    + reflexivity.
    + intros [_ Hle]. vm_compute in Hle. apply Hle. reflexivity.
    + split; [exact Hret|]. rewrite Htab. reflexivity.
Defined.

(** C5, as stated, fails ([Expire] with a time to live far in the past).
    At second 1700000000 the call [Expire("k", -2000000000)] is accepted
    and stores [ExpiresAt = -300000000]; [Get] takes only a positive
    [ExpiresAt] as an expiration, so the entry is still returned. *)
Lemma Expire_far_past_ttl_stays_visible :
  let w := exec (Set_ "k" (Str "v"))
                (boot (NewCacheEngine 10) 1700000000000000000 1000 []) in
  let w' := exec (Expire "k" (-2000000000)) w in
  eval (Expire "k" (-2000000000)) w = true ∧
  table w' !! "k" = Some (mkEntry (Str "v") (-300000000) 1700000000000000000) ∧
  eval (Get "k") w' = (Str "v", true).
Proof. vm_compute. done. Qed.

(** C5, amended ([Expire]).  On an absent key [Expire] returns false and
    changes nothing.  On a present key it returns true and stores
    [ExpiresAt = now + seconds], the sum of the current second and
    [seconds] in [int64] arithmetic (the exact sum whenever that fits).
    If [seconds ≤ 0] and the sum is still positive, the next [Get], at a
    clock that has not gone back, deletes the entry and reports it absent.
    If the sum is zero or negative, the entry counts as having no
    expiration and the next [Get] returns its value. *)
Theorem Expire_spec (key : string) (seconds : Z) (w : World) :
  (table w !! key = None → Expire key seconds w = (false, w)) ∧
  (∀ e, table w !! key = Some e →
     let w' := exec (Expire key seconds) w in
     eval (Expire key seconds) w = true ∧
     table w' = <[key := with_ExpiresAt (wrap64 (Unix (now w) + seconds)) e]> (table w) ∧
     (is_int64 (Unix (now w) + seconds) →
        table w' = <[key := with_ExpiresAt (Unix (now w) + seconds) e]> (table w)) ∧
     (seconds ≤ 0 → 0 < Unix (now w) + seconds → is_int64 (now w) → now w ≤ now w' →
        eval (Get key) w' = (Nil, false) ∧
        table (exec (Get key) w') = delete key (table w)) ∧
     (Unix (now w) + seconds ≤ 0 → is_int64 (Unix (now w) + seconds) →
        eval (Get key) w' = (Value e, true))).
Proof.
  split; [apply Expire_absent|].
  intros e Hk w'. subst w'. unfold eval, exec.
  rewrite (Expire_present _ _ _ _ Hk). simpl.
  split; [done|]. split; [done|]. split; [|split].
  - intros Hfit. by rewrite wrap64_id.
  - intros Hle Hpos Hnow Hmono.
    assert (is_int64 (Unix (now w) + seconds)) as Hfit.
    { pose proof (Unix_int64 _ Hnow) as [Hlo Hhi].
      unfold is_int64, min_int64 in *. lia. }
    rewrite wrap64_id by done.
    erewrite Get_expired.
    + simpl. split; [done|]. apply delete_insert_eq.
    + apply lookup_insert_eq.
    + unfold expired. simpl. split; [done|].
      pose proof (Unix_mono _ _ Hmono) as Hm. unfold now in *. simpl in *. lia.
  - intros Hle Hfit. rewrite wrap64_id by done.
    rewrite (Get_live key (with_ExpiresAt (Unix (now w) + seconds) e)).
    + done.
    + apply lookup_insert_eq.
    + unfold expired. simpl. lia.
Qed.

Lemma Expire_spec_witness :
  let w := exec (Set_ "k" (Str "v"))
                (boot (NewCacheEngine 10) 1700000000000000000 1000 []) in
  Expire "none" (-5) w = (false, w) ∧
  eval (Expire "k" (-5)) w = true ∧
  eval (Get "k") (exec (Expire "k" (-5)) w) = (Nil, false) ∧
  eval (Get "k") (exec (Expire "k" (-1700000000)) w) = (Str "v", true).
Proof.
  intros w.
  pose (e := mkEntry (Str "v") 0 1700000000000000000).
  assert (table w !! "k" = Some e) as Hk by reflexivity.
  split; [|split; [|split]].
  - apply (proj1 (Expire_spec "none" (-5) w)). reflexivity.
  - apply (proj2 (Expire_spec "k" (-5) w) e Hk).
  - apply (proj2 (Expire_spec "k" (-5) w) e Hk).
    + lia.
    + vm_compute. reflexivity.
    + vm_compute. split; discriminate.
    + vm_compute. discriminate.
  - apply (proj2 (Expire_spec "k" (-1700000000) w) e Hk).
    + vm_compute. discriminate.
    + vm_compute. split; discriminate.
Defined.

(** C6, as stated, fails (a truncated last record).  On a log holding one
    complete [SET] record followed by a record cut short, the decoder's
    second result is [io.ErrUnexpectedEOF]; its text is not "EOF", so
    [LoadFromLog] returns an error, after having applied the first
    record. *)
Lemma LoadFromLog_truncated_tail_is_an_error :
  let log := [Rec (mkLogEntry "SET" "a" (Int 1) 0 0); DecodeErr io_ErrUnexpectedEOF] in
  let w := mkWorld (NewCacheEngine 10) {["cache.log" := Readable log]}
                   (λ n, 1000 + Z.of_nat n) 0 (λ _, []) 0 in
  eval (LoadFromLog "") w = Some "error al leer entrada del log: unexpected EOF" ∧
  table (exec (LoadFromLog "") w) !! "a" = Some (mkEntry (Int 1) 0 1000).
Proof. vm_compute. done. Qed.

(** C6, amended (end of the log).  When the decoder reaches a clean end of
    input after the records of the file, [LoadFromLog] stops and returns
    no error, every record having been applied.  When the file ends in a
    truncated record, which the decoder reports as "unexpected EOF",
    [LoadFromLog] returns the error "error al leer entrada del log:
    unexpected EOF"; the complete records before it have been applied. *)
Theorem LoadFromLog_end_of_input (filename : string) (recs : list LogEntry) (w : World) :
  let path := if (filename =? "")%string then DefaultLogFile else filename in
  (fs w !! path = Some (Readable (map Rec recs)) →
     LoadFromLog filename w = (None, exec (seq_ (map applyEntry recs)) w)) ∧
  (fs w !! path = Some (Readable (map Rec recs ++ [DecodeErr io_ErrUnexpectedEOF])) →
     LoadFromLog filename w =
       (Some "error al leer entrada del log: unexpected EOF",
        exec (seq_ (map applyEntry recs)) w)).
Proof.
  intros path. split; intros Hfile; unfold LoadFromLog; fold path; rewrite Hfile.
  - apply replay_clean_end.
  - by rewrite replay_error.
Qed.

Lemma LoadFromLog_end_of_input_witness :
  let recs := [mkLogEntry "SET" "a" (Int 1) 0 0; mkLogEntry "DEL" "a" Nil 0 0;
               mkLogEntry "SET" "b" (Int 2) 0 0] in
  let w := mkWorld (NewCacheEngine 10) {["cache.log" := Readable (map Rec recs)]}
                   (λ n, 1000 + Z.of_nat n) 0 (λ _, []) 0 in
  let v := mkWorld (NewCacheEngine 10)
                   {["cache.log" := Readable (map Rec recs ++ [DecodeErr io_ErrUnexpectedEOF])]}
                   (λ n, 1000 + Z.of_nat n) 0 (λ _, []) 0 in
  LoadFromLog "" w = (None, exec (seq_ (map applyEntry recs)) w) ∧
  LoadFromLog "" v = (Some "error al leer entrada del log: unexpected EOF",
                      exec (seq_ (map applyEntry recs)) v).
Proof.
  intros recs w v. split.
  - apply (proj1 (LoadFromLog_end_of_input "" recs w)). reflexivity.
  - apply (proj2 (LoadFromLog_end_of_input "" recs v)). reflexivity.
Defined.

(** C7 (a malformed record).  When the decoder fails on a record with an
    error other than the end of input, [LoadFromLog] returns that error,
    wrapped, and the world is the one the records before the failing one
    produced: neither the failing record nor anything after it is
    applied. *)
Theorem LoadFromLog_malformed_record_aborts (filename err : string)
    (recs : list LogEntry) (rest : list Decoded) (w : World) :
  let path := if (filename =? "")%string then DefaultLogFile else filename in
  fs w !! path = Some (Readable (map Rec recs ++ DecodeErr err :: rest)) →
  err ≠ io_EOF →
  LoadFromLog filename w =
    (Some ("error al leer entrada del log: " +:+ err),
     exec (seq_ (map applyEntry recs)) w) ∧
  exec (LoadFromLog filename) w = exec (replay (map Rec recs)) w.
Proof.
  intros path Hfile Herr.
  assert (LoadFromLog filename w =
          (Some ("error al leer entrada del log: " +:+ err),
           exec (seq_ (map applyEntry recs)) w)) as Heq.
  { unfold LoadFromLog. fold path. rewrite Hfile.
    by rewrite replay_error, onDecodeError_other. }
  split; [done|]. unfold exec at 1 2. by rewrite Heq, replay_clean_end.
Qed.

Lemma LoadFromLog_malformed_record_aborts_witness :
  let bad := "invalid character 'x' looking for beginning of value" in
  let log := [Rec (mkLogEntry "SET" "a" (Int 1) 0 0); DecodeErr bad;
              Rec (mkLogEntry "SET" "b" (Int 2) 0 0)] in
  let w := mkWorld (NewCacheEngine 10) {["replay.log" := Readable log]}
                   (λ n, 1000 + Z.of_nat n) 0 (λ _, []) 0 in
  eval (LoadFromLog "replay.log") w =
    Some "error al leer entrada del log: invalid character 'x' looking for beginning of value" ∧
  table (exec (LoadFromLog "replay.log") w) = {["a" := mkEntry (Int 1) 0 1000]}.
Proof.
  intros bad log w.
  destruct (LoadFromLog_malformed_record_aborts "replay.log" bad
              [mkLogEntry "SET" "a" (Int 1) 0 0]
              [Rec (mkLogEntry "SET" "b" (Int 2) 0 0)] w) as [Heq _].
  - reflexivity.
  - discriminate.
  - unfold eval, exec. rewrite Heq. split; reflexivity.
Defined.

(** C8 ([ImportData]).  The table becomes the given map, whatever its
    size: [Size()] is the number of its entries, every lookup is a lookup
    in the given map, and the bound [maxEntries] is neither changed nor
    consulted; no clock reading and no iteration takes place. *)
Theorem ImportData_replaces_table (d : gmap string CacheEntry) (w : World) :
  let w' := exec (ImportData d) w in
  table w' = d ∧
  eval Size w' = Z.of_nat (size d) ∧
  eval MaxEntries w' = eval MaxEntries w ∧
  (∀ key, d !! key = None → eval (Get key) w' = (Nil, false)) ∧
  (∀ key e, d !! key = Some e → ¬ expired e (Unix (now w)) →
     eval (Get key) w' = (Value e, true)) ∧
  reads w' = reads w ∧ ranges w' = ranges w.
Proof.
  simpl. split; [done|]. split; [done|]. split; [done|]. split; [|split; [|done]].
  - intros key Hk. unfold eval. by rewrite Get_absent.
  - intros key e Hk Hlive. unfold eval. by erewrite Get_live.
Qed.

Lemma ImportData_replaces_table_witness :
  let d : gmap string CacheEntry :=
    <["a" := mkEntry (Int 1) 0 10]> (<["b" := mkEntry (Int 2) 0 20]> {["c" := mkEntry (Int 3) 0 30]}) in
  let w' := exec (ImportData d) (boot (NewCacheEngine 2) 1000 1000 []) in
  eval Size w' = 3 ∧ eval MaxEntries w' = 2 ∧
  eval (Get "none") w' = (Nil, false) ∧
  eval (Get "c") w' = (Int 3, true).
Proof.
  intros d w'.
  pose proof (ImportData_replaces_table d (boot (NewCacheEngine 2) 1000 1000 []))
    as (_ & Hsize & Hmax & Habsent & Hlive & _).
  split; [exact Hsize|]. split; [exact Hmax|]. split.
  - apply Habsent. reflexivity.
  - apply (Hlive "c" (mkEntry (Int 3) 0 30)); [reflexivity|].
    unfold expired. simpl. lia.
Defined.

(** C9 (the empty key).  When the entry stored under "" is strictly the
    least recently accessed of the table, [evictLRU] deletes nothing, in
    every order of iteration; so a [Set] of a key that is not in the table,
    made when the table has reached [maxEntries], adds an entry and leaves
    [Size()] above [MaxEntries()]. *)
Theorem evictLRU_spares_empty_key (w : World) (e0 : CacheEntry) :
  table w !! "" = Some e0 →
  (∀ k e, k ≠ "" → table w !! k = Some e → LastAccess e0 < LastAccess e) →
  table (exec evictLRU w) = table w ∧
  ∀ key value, table w !! key = None →
    maxEntries (cache w) ≤ Z.of_nat (size (table w)) →
    let w' := exec (Set_ key value) w in
    size (table w') = S (size (table w)) ∧ eval MaxEntries w' < eval Size w'.
Proof.
  intros H0 Hmin.
  assert (victim w = None) as Hv.
  { unfold victim, UnixNano. case_decide as Hk; [|done]. exfalso. apply Hk.
    destruct (Z.lt_ge_cases (LastAccess e0) (now w)) as [Hlt|Hge].
    - by apply (scan_unique_min w "" e0).
    - rewrite scan_start_when_none_older; [done|].
      intros k e Hke. apply elem_of_order in Hke.
      destruct (decide (k = "")) as [->|Hne].
      + rewrite H0 in Hke. injection Hke as <-. lia.
      + specialize (Hmin _ _ Hne Hke). lia. }
  assert (table (exec evictLRU w) = table w) as Hsame.
  { by rewrite evictLRU_table, Hv. }
  split; [done|]. intros key value Hnew Hfull w'. subst w'.
  unfold eval, MaxEntries, Size, get_maxEntries, len_data. cbn [fst].
  rewrite Set_maxEntries, Set_table_at_capacity, Hsame by done.
  rewrite map_size_insert_None by done. split; [done|]. lia.
Qed.

Lemma evictLRU_spares_empty_key_witness :
  let e0 := mkEntry (Int 0) 0 100 in
  let w := mkWorld (mkEngine (<["" := e0]> {["a" := mkEntry (Int 1) 0 200]}) 2 "")
                   ∅ (λ n, 1000 + Z.of_nat n) 0 (λ _, [1%nat]) 0 in
  table (exec evictLRU w) = table w ∧
  size (table (exec (Set_ "b" (Int 2)) w)) = 3%nat.
Proof.
  intros e0 w.
  assert (table w !! "" = Some e0) as H0 by reflexivity.
  assert (∀ k e, k ≠ "" → table w !! k = Some e → LastAccess e0 < LastAccess e) as Hmin.
  { intros k e Hne Hk. unfold w, table in Hk. simpl in Hk.
    rewrite lookup_insert_ne in Hk by done.
    apply lookup_singleton_Some in Hk as [_ <-]. simpl. lia. }
  destruct (evictLRU_spares_empty_key w e0 H0 Hmin) as [Hkeep Hgrow].
  split; [exact Hkeep|].
  apply (Hgrow "b" (Int 2)); [reflexivity|]. vm_compute. discriminate.
Defined.

(** C10 (an expired entry brought back).  On a key whose entry is already
    past its expiration but still in the table, [Expire] with a positive
    [seconds] that fits the [int64] sum returns true and stores an
    [ExpiresAt] later than the current second; a [Get] made before that
    new expiration then returns the old value with [found = true]. *)
Theorem Expire_revives_expired_entry (key : string) (seconds : Z)
    (e : CacheEntry) (w : World) :
  table w !! key = Some e →
  expired e (Unix (now w)) →
  0 < seconds →
  is_int64 (Unix (now w) + seconds) →
  let w' := exec (Expire key seconds) w in
  eval (Expire key seconds) w = true ∧
  table w' !! key = Some (with_ExpiresAt (Unix (now w) + seconds) e) ∧
  Unix (now w) < Unix (now w) + seconds ∧
  (Unix (now w') < Unix (now w) + seconds → eval (Get key) w' = (Value e, true)).
Proof.
  intros Hk Hexp Hpos Hfit w'. subst w'. unfold eval, exec.
  rewrite (Expire_present _ _ _ _ Hk), wrap64_id by done. cbn [fst snd].
  split; [done|]. split; [apply lookup_insert_eq|]. split; [lia|].
  intros Hbefore.
  rewrite (Get_live key (with_ExpiresAt (Unix (now w) + seconds) e)).
  - done.
  - apply lookup_insert_eq.
  - unfold expired. simpl. unfold now in *. simpl in *. lia.
Qed.

Lemma Expire_revives_expired_entry_witness :
  let w := mkWorld (mkEngine {["k" := mkEntry (Str "v") 5 1]} 10 "")
                   ∅ (λ n, 7000000000 + Z.of_nat n) 0 (λ _, []) 0 in
  eval (Get "k") w = (Nil, false) ∧
  eval (Expire "k" 60) w = true ∧
  eval (Get "k") (exec (Expire "k" 60) w) = (Str "v", true).
Proof.
  intros w. split; [reflexivity|].
  assert (table w !! "k" = Some (mkEntry (Str "v") 5 1)) as Hk by reflexivity.
  assert (expired (mkEntry (Str "v") 5 1) (Unix (now w))) as Hexp.
  { unfold expired. vm_compute. split; [reflexivity|discriminate]. }
  assert (is_int64 (Unix (now w) + 60)) as Hfit.
  { vm_compute. split; discriminate. }
  destruct (Expire_revives_expired_entry "k" 60 _ w Hk Hexp ltac:(lia) Hfit)
    as (Hret & _ & _ & Hget).
  split; [exact Hret|]. apply Hget. vm_compute. reflexivity.
Defined.

(** * Further properties of the engine *)

(** X1.  Eviction picks a least recently accessed entry: [evictLRU] either
    leaves the table as it is, or deletes exactly one entry, whose key is
    not "", which is older than the reading the scan started from and than
    which no entry of the table is older. *)
Theorem evictLRU_removes_least_recent (w : World) :
  table (exec evictLRU w) = table w ∨
  ∃ k e, k ≠ "" ∧ table w !! k = Some e ∧ least_recent w e ∧ LastAccess e < now w ∧
         table (exec evictLRU w) = delete k (table w).
Proof.
  rewrite evictLRU_table. destruct (victim w) as [k|] eqn:Hv; [right|by left].
  destruct (victim_Some w k Hv) as (Hne & e & Hk & Hlt & Hmin).
  by exists k, e.
Qed.


(** X2.  A [Set] is a touch: the key then holds the value, without expiration,
    last accessed at the reading [Set] took after the capacity check. *)
Theorem Set_stores_fresh_entry (key : string) (value : any) (w : World) :
  let w' := exec (Set_ key value) w in
  table w' !! key = Some (mkEntry value 0 (clock w (Nat.pred (reads w')))) ∧
  eval (Get key) w' = (value, true).
Proof.
  intros w'. subst w'.
  assert (table (exec (Set_ key value) w) !! key
          = Some (mkEntry value 0 (clock w (Nat.pred (reads (exec (Set_ key value) w)))))) as Hk.
  { destruct (Z.lt_ge_cases (Z.of_nat (size (table w))) (maxEntries (cache w)))
      as [Hroom|Hfull].
    - rewrite Set_table_below_capacity, Set_reads_below_capacity by done.
      apply lookup_insert_eq.
    - rewrite Set_table_at_capacity, Set_reads_at_capacity by done.
      apply lookup_insert_eq. }
  split; [done|]. unfold eval. rewrite (Get_live _ _ _ Hk); [done|].
  unfold expired. simpl. lia.
Qed.


(** X3.  LRU order, away from the empty key: in a fresh engine whose capacity
    is the number of pairs, under a clock that advances at every reading,
    after a [Set] of each pair (distinct keys), a [Get] of every key but
    [u], and a [Set] of one more key, the key [u], if it is not "", has
    been evicted, every other key still returns its value, and the table
    is exactly full. *)
Theorem LRU_evicts_untouched_key (calls : list (string * any))
    (touched : list string) (u knew : string) (vnew : any) (w : World) :
  cache w = NewCacheEngine (Z.of_nat (length calls)) →
  clock_increasing w →
  NoDup calls.*1 →
  u ∈ calls.*1 → u ≠ "" →
  (∀ k, k ∈ touched ↔ k ∈ calls.*1 ∧ k ≠ u) →
  knew ∉ calls.*1 →
  let w' := exec (sets calls ;;; gets touched ;;; Set_ knew vnew) w in
  eval (Get u) w' = (Nil, false) ∧
  (∀ k v, (k, v) ∈ calls → k ≠ u → eval (Get k) w' = (v, true)) ∧
  eval (Get knew) w' = (vnew, true) ∧
  eval Size w' = eval MaxEntries w'.
Proof.
  intros Hc Hclock Hnd Hu Hune Htouched Hknew w'.
  assert (0 < length calls)%nat as Hlen.
  { destruct calls; [by apply elem_of_nil in Hu|simpl; lia]. }
  assert (maxEntries (cache w) = Z.of_nat (length calls)) as Hmax.
  { rewrite Hc. unfold NewCacheEngine. cbn [maxEntries].
    destruct (Z.leb_spec (Z.of_nat (length calls)) 0); [lia|done]. }
  assert (table w = ∅) as Hempty by (unfold table; by rewrite Hc).
  assert (settled w) as Hs.
  { split; [| |done]; intros k e; rewrite Hempty, lookup_empty; done. }
  (* the table after the inserts *)
  destruct (sets_fill calls w) as (Hs1 & Hclk1 & Hmax1 & Hsize1 & Hother1 & Hin1).
  { done. } { done. } { intros k _. by rewrite Hempty. }
  { rewrite Hempty, map_size_empty. lia. }
  set (w1 := exec (sets calls) w) in *.
  assert (∀ k, k ∈ calls.*1 → is_Some (table w1 !! k)) as Hdom1.
  { intros k [[k' v] [-> Hin]]%list_elem_of_fmap.
    destruct (Hin1 _ _ Hin) as (e & He & _). by exists e. }
  assert (∀ k, k ∉ calls.*1 → table w1 !! k = None) as Hout1.
  { intros k Hk. by rewrite Hother1, Hempty. }
  (* the table after the reads *)
  destruct (gets_touch touched w1) as (Hs2 & Hclk2 & Hmax2 & Hsize2 & Hnow2 & Hother2 & Hkeep2).
  { done. } { intros k Hk. apply Hdom1. by apply Htouched. }
  set (w2 := exec (gets touched) w1) in *.
  assert (w' = exec (Set_ knew vnew) w2) as Hw'.
  { unfold w', w2, w1. by rewrite !exec_bind. }
  destruct (Hdom1 u Hu) as [eu Heu1].
  assert (table w2 !! u = Some eu) as Heu2.
  { rewrite Hother2; [done|]. intros Hin. apply Htouched in Hin as [_ Hin]. done. }
  assert (LastAccess eu < now w1) as Hold by by eapply settled_past.
  assert (∀ k e, k ≠ u → table w2 !! k = Some e → now w1 < LastAccess e) as Hyoung.
  { intros k e Hne Hk.
    destruct (decide (k ∈ calls.*1)) as [Hin|Hout].
    - destruct (Hdom1 k Hin) as [e1 He1].
      destruct (Hkeep2 _ _ He1) as (e2 & He2 & _ & Hacc).
      rewrite Hk in He2. injection He2 as <-. apply Hacc. by apply Htouched.
    - rewrite Hother2, Hout1 in Hk; [done|done|].
      intros Hin. apply Htouched in Hin as [Hin _]. done. }
  assert (victim w2 = Some u) as Hv.
  { unfold victim, UnixNano. rewrite (scan_unique_min w2 u eu); [|done|lia|].
    - by case_decide.
    - intros k e Hne Hk. specialize (Hyoung _ _ Hne Hk). lia. }
  assert (maxEntries (cache w2) = Z.of_nat (size (table w2))) as Hfull.
  { rewrite Hmax2, Hmax1, Hmax, Hsize2, Hsize1, Hempty, map_size_empty. done. }
  assert (table w' = <[knew := mkEntry vnew 0 (clock w2 (S (reads w2)))]> (delete u (table w2)))
    as Htab.
  { rewrite Hw', Set_table_at_capacity by lia. by rewrite evictLRU_table, Hv. }
  assert (knew ≠ u) as Hku by (intros ->; done).
  split; [|split; [|split]].
  - unfold eval. rewrite Get_absent; [done|].
    rewrite Htab, lookup_insert_ne, lookup_delete_eq; done.
  - intros k v Hin Hne.
    destruct (Hin1 _ _ Hin) as (e1 & He1 & Hv1).
    destruct (Hkeep2 _ _ He1) as (e2 & He2 & Hv2 & _).
    assert (k ≠ knew) as Hkn.
    { intros ->. apply Hknew. apply list_elem_of_fmap. by exists (knew, v). }
    unfold eval. rewrite (Get_live k e2).
    + simpl. congruence.
    + rewrite Htab, lookup_insert_ne, lookup_delete_ne; done.
    + unfold expired. rewrite (settled_live w2 Hs2 _ _ He2). lia.
  - unfold eval. rewrite (Get_live knew (mkEntry vnew 0 (clock w2 (S (reads w2))))).
    + done.
    + rewrite Htab. apply lookup_insert_eq.
    + unfold expired. simpl. lia.
  - unfold eval, Size, MaxEntries, len_data, get_maxEntries. cbn [fst].
    rewrite Htab, Hw', Set_maxEntries, Hfull.
    rewrite map_size_insert_None by (rewrite lookup_delete_ne, Hother2, Hout1; done || by
      intros Hin; apply Htouched in Hin as [Hin _]).
    rewrite map_size_delete_Some by done.
    assert (size (table w2) ≠ 0%nat) as Hpos by (rewrite Hsize2, Hsize1; lia). lia.
Qed.

Lemma LRU_evicts_untouched_key_witness :
  let calls := [("key1", Str "value1"); ("key2", Str "value2"); ("key3", Str "value3")] in
  let w := boot (NewCacheEngine 3) 1000 100 [2%nat; 0%nat] in
  let w' := exec (sets calls ;;; gets ["key1"; "key2"] ;;; Set_ "key4" (Str "value4")) w in
  eval (Get "key3") w' = (Nil, false) ∧
  eval (Get "key1") w' = (Str "value1", true) ∧
  eval (Get "key2") w' = (Str "value2", true) ∧
  eval (Get "key4") w' = (Str "value4", true).
Proof.
  intros calls w.
  destruct (LRU_evicts_untouched_key calls ["key1"; "key2"] "key3" "key4"
              (Str "value4") w) as (Hgone & Hkept & Hnew & _).
  - reflexivity.
  - intros i. unfold w, boot. simpl. lia.
  - apply (bool_decide_unpack _). vm_compute. exact I.
  - apply (bool_decide_unpack _). vm_compute. exact I.
  - discriminate.
  - intros k. simpl. rewrite !elem_of_cons, !elem_of_nil.
    split.
    + intros [->|[->|[]]]; (split; [tauto|discriminate]).
    + intros [[->|[->|[->|[]]]] Hne]; tauto.
  - apply (bool_decide_unpack _). vm_compute. exact I.
  - split; [exact Hgone|]. split; [|split; [|exact Hnew]].
    + apply (Hkept "key1" (Str "value1")); [left|discriminate].
    + apply (Hkept "key2" (Str "value2")); [right; left|discriminate].
Defined.


(** [NewCacheEngine]: an empty table, bounded by the given capacity, or by
    1000 when the given one is not positive. *)
Lemma NewCacheEngine_capacity (n : Z) :
  data (NewCacheEngine n) = ∅ ∧
  0 < maxEntries (NewCacheEngine n) ∧
  maxEntries (NewCacheEngine n) = (if decide (0 < n) then n else 1000).
Proof.
  unfold NewCacheEngine. cbn [data maxEntries].
  destruct (Z.leb_spec n 0); case_decide; (split; [done|split; lia]).
Qed.


(** X4.  Below capacity an overwrite evicts nothing: the key gets its new
    entry, every other entry stays, [Size()] is unchanged. *)
Theorem Set_overwrite_below_capacity (key : string) (value : any) (w : World) :
  is_Some (table w !! key) →
  Z.of_nat (size (table w)) < maxEntries (cache w) →
  let w' := exec (Set_ key value) w in
  (∀ k, k ≠ key → table w' !! k = table w !! k) ∧
  table w' !! key = Some (mkEntry value 0 (now w)) ∧
  eval Size w' = eval Size w.
Proof.
  intros Hk Hroom w'. subst w'.
  unfold eval, Size, len_data. cbn [fst].
  rewrite Set_table_below_capacity by done.
  split; [|split].
  - intros k Hne. by rewrite lookup_insert_ne.
  - apply lookup_insert_eq.
  - by rewrite map_size_insert_Some.
Qed.

Lemma Set_overwrite_below_capacity_witness :
  let w := exec (sets [("a", Int 1); ("b", Int 2)]) (boot (NewCacheEngine 3) 1000 1000 []) in
  let w' := exec (Set_ "a" (Int 5)) w in
  table w' !! "b" = table w !! "b" ∧ eval Size w' = eval Size w.
Proof.
  intros w.
  destruct (Set_overwrite_below_capacity "a" (Int 5) w) as (Hframe & _ & Hsize).
  - apply (bool_decide_unpack _). vm_compute. exact I.
  - vm_compute. reflexivity.
  - split; [|exact Hsize]. apply Hframe. discriminate.
Defined.


(** X5.  Time to live: after [Expire] with a positive [seconds], a [Get] made
    before the new expiration returns the value, and a [Get] made at or
    after it reports the key absent and deletes the entry. *)
Theorem Expire_then_Get (key : string) (seconds : Z) (e : CacheEntry) (w : World) :
  table w !! key = Some e →
  0 < seconds → 0 ≤ Unix (now w) →
  is_int64 (Unix (now w) + seconds) →
  let w' := exec (Expire key seconds) w in
  (Unix (now w') < Unix (now w) + seconds → eval (Get key) w' = (Value e, true)) ∧
  (Unix (now w) + seconds ≤ Unix (now w') →
     eval (Get key) w' = (Nil, false) ∧ table (exec (Get key) w') !! key = None).
Proof.
  intros Hk Hpos Hnow Hfit w'. subst w'. unfold eval, exec.
  rewrite (Expire_present _ _ _ _ Hk), wrap64_id by done. cbn [fst snd].
  split; intros Hcmp.
  - rewrite (Get_live key (with_ExpiresAt (Unix (now w) + seconds) e)).
    + done.
    + apply lookup_insert_eq.
    + unfold expired. simpl. unfold now in *. simpl in *. lia.
  - rewrite (Get_expired key (with_ExpiresAt (Unix (now w) + seconds) e)).
    + cbn [fst snd]. split; [done|]. wsimpl. apply lookup_delete_eq.
    + apply lookup_insert_eq.
    + unfold expired. simpl. unfold now in *. simpl in *. lia.
Qed.

Lemma Expire_then_Get_witness :
  let w := exec (Set_ "key1" (Str "value1"))
                (boot (NewCacheEngine 10) 1700000000000000000 1000 []) in
  let soon := exec (Expire "key1" 1) w in
  let late := mkWorld (cache soon) (fs soon) (λ n, clock soon n + 2000000000)
                      (reads soon) (seeds soon) (ranges soon) in
  eval (Get "key1") soon = (Str "value1", true) ∧
  eval (Get "key1") late = (Nil, false).
Proof.
  intros w soon late.
  assert (table w !! "key1" = Some (mkEntry (Str "value1") 0 1700000000000000000))
    as Hk by reflexivity.
  split.
  - apply (Expire_then_Get "key1" 1 _ w Hk); [lia| | |].
    + vm_compute. discriminate.
    + vm_compute. split; discriminate.
    + vm_compute. reflexivity.
  - reflexivity.
Defined.


(** X6.  The capacity bound, away from the empty key: from a freshly
    constructed engine, under a clock that advances at every reading,
    after each call of a run of [Set], [Get], [Delete], [Expire] and
    sweeps in which no [Set] writes under the key "", [Size()] is at most
    [MaxEntries()]. *)
Theorem calls_keep_capacity_bound (n : Z) (cs : list Call) (w : World) :
  cache w = NewCacheEngine n →
  clock_increasing w →
  Forall (λ c, ¬ writes_empty_key c) cs →
  ∀ i, let w' := exec (seq_ (map call (take i cs))) w in
       eval Size w' ≤ eval MaxEntries w'.
Proof.
  intros Hc Hclock Hkeys i w'.
  assert (bounded w') as Hb.
  { apply calls_preserve_bounded; [by apply Forall_take|by eapply fresh_bounded]. }
  apply Hb.
Qed.

Lemma calls_keep_capacity_bound_witness :
  let cs := [CallSet "a" (Int 1); CallSet "b" (Int 2); CallGet "a"; CallExpire "b" (-1);
             CallSet "c" (Int 3); CallSweep; CallDelete "a"; CallSet "a" (Int 4)] in
  let w' := exec (seq_ (map call (take 5 cs))) (boot (NewCacheEngine 2) 1000 1000 []) in
  eval Size w' ≤ eval MaxEntries w'.
Proof.
  intros cs.
  apply (calls_keep_capacity_bound 2 cs (boot (NewCacheEngine 2) 1000 1000 [])).
  - reflexivity.
  - intros i. unfold boot. simpl. lia.
  - repeat constructor; simpl; (discriminate || tauto).
Defined.

(** X7.  A stalled clock: [evictLRU] deletes an entry only if one was last
    accessed strictly before the reading it takes.  When no entry is,
    nothing is deleted, and a [Set] of a new key into a full table leaves
    it one entry larger. *)
Theorem evictLRU_needs_an_older_entry (w : World) :
  (∀ k e, table w !! k = Some e → now w ≤ LastAccess e) →
  table (exec evictLRU w) = table w ∧
  ∀ key value, table w !! key = None →
    maxEntries (cache w) ≤ Z.of_nat (size (table w)) →
    size (table (exec (Set_ key value) w)) = S (size (table w)).
Proof.
  intros Hyoung.
  assert (victim w = None) as Hv.
  { unfold victim, UnixNano. rewrite scan_start_when_none_older; [by case_decide|].
    intros k e Hke. apply elem_of_order in Hke. eauto. }
  assert (table (exec evictLRU w) = table w) as Hsame by by rewrite evictLRU_table, Hv.
  split; [done|]. intros key value Hnew Hfull.
  rewrite Set_table_at_capacity, Hsame by done. by apply map_size_insert_None.
Qed.

Lemma evictLRU_needs_an_older_entry_witness :
  let w := mkWorld (mkEngine {["a" := mkEntry (Int 1) 0 1000]} 1 "")
                   ∅ (λ _, 1000) 0 (λ _, []) 0 in
  table (exec evictLRU w) = table w ∧
  size (table (exec (Set_ "b" (Int 2)) w)) = 2%nat.
Proof.
  intros w.
  destruct (evictLRU_needs_an_older_entry w) as [Hkeep Hgrow].
  - intros k e Hk. unfold w, table in Hk. cbn [cache data] in Hk.
    apply lookup_singleton_Some in Hk as [_ <-]. unfold now. simpl. lia.
  - split; [exact Hkeep|]. apply (Hgrow "b" (Int 2)); [reflexivity|].
    vm_compute. discriminate.
Defined.

(** X8.  Active sweep: in every order of iteration [cleanExpired] leaves
    exactly the entries that are not expired at the current second, each
    as it was; entries without expiration stay, and [Size()] does not
    grow. *)
Theorem cleanExpired_filters (w : World) :
  let w' := exec cleanExpired w in
  table w' = filter (λ kv, ¬ expired kv.2 (Unix (now w))) (table w) ∧
  (∀ k e, table w !! k = Some e → ExpiresAt e ≤ 0 → table w' !! k = Some e) ∧
  eval Size w' ≤ eval Size w.
Proof.
  intros w'. subst w'. rewrite cleanExpired_table. split; [done|]. split.
  - intros k e Hk Hnone. apply map_lookup_filter_Some. split; [done|].
    unfold expired. simpl. lia.
  - unfold eval, Size, len_data. cbn [fst]. rewrite cleanExpired_table.
    pose proof (map_size_filter (λ kv : string * CacheEntry, ¬ expired kv.2 (Unix (now w)))
                  (table w)) as Hle. simpl. lia.
Qed.

(** X9.  [Delete] and what follows it: after [Delete(key)] a [Get(key)] finds
    nothing and a second [Delete(key)] returns false; the other entries
    are as before, and [Size()] has dropped by one exactly when the first
    call returned true. *)
Theorem Delete_then_absent (key : string) (w : World) :
  let w' := exec (Delete key) w in
  eval (Get key) w' = (Nil, false) ∧
  eval (Delete key) w' = false ∧
  (∀ k, k ≠ key → table w' !! k = table w !! k) ∧
  eval Size w' = eval Size w - (if eval (Delete key) w then 1 else 0).
Proof.
  intros w'. subst w'.
  assert (table (exec (Delete key) w) = delete key (table w)) as Htab.
  { unfold exec. rewrite Delete_eq. destruct (table w !! key) eqn:Hk; [done|].
    symmetry. by apply delete_id. }
  assert (table (exec (Delete key) w) !! key = None) as Hgone.
  { rewrite Htab. apply lookup_delete_eq. }
  split; [|split; [|split]].
  - unfold eval. by rewrite Get_absent.
  - unfold eval at 1. rewrite Delete_eq. by rewrite Hgone.
  - intros k Hne. rewrite Htab. by apply lookup_delete_ne.
  - unfold eval, Size, len_data. cbn [fst]. rewrite Htab, Delete_eq, map_size_delete.
    destruct (table w !! key) as [e|] eqn:Hk; cbn [fst]; unfold id; [|lia].
    assert (size (table w) ≠ 0%nat) by (apply map_size_ne_0_lookup_2 with key; by rewrite Hk).
    lia.
Qed.

(** X10.  [ExportData] returns the table, entry for entry, in every order of
    iteration, and changes neither the table nor the clock; importing
    what it returned leaves the table as it was. *)
Theorem ExportData_copies_table (w : World) :
  eval ExportData w = table w ∧
  table (exec ExportData w) = table w ∧
  reads (exec ExportData w) = reads w ∧
  table (exec (d <- ExportData ;; ImportData d) w) = table w.
Proof.
  unfold eval, exec, bind. rewrite ExportData_eq. by repeat split.
Qed.

(** X11.  Logging switched on changes nothing: after [EnableLogging] the calls
    of the engine leave the same table as without it, write to no file,
    and keep the configured name and the bound. *)
Theorem logging_is_inert (filename : string) (cs : list Call) (w : World) :
  let w' := exec (seq_ (map call cs)) (exec (EnableLogging filename) w) in
  table w' = table (exec (seq_ (map call cs)) w) ∧
  fs w' = fs w ∧
  eval GetLogFile w' = filename ∧
  eval MaxEntries w' = eval MaxEntries w.
Proof.
  intros w'. subst w'.
  change (exec (EnableLogging filename) w) with (with_logFile filename w).
  rewrite calls_with_logFile.
  destruct (calls_surroundings cs w) as (Hmax & _ & Hfs & _).
  by repeat split.
Qed.

(** X12.  [Expire] is not a touch: it leaves [LastAccess] alone, so an entry
    that was strictly the least recently accessed still is after it has
    been given a time to live, and the next [Set] of a new key into the
    full table evicts it; the other entries stay. *)
Theorem Expire_is_not_a_touch (key knew : string) (seconds : Z) (vnew : any)
    (e : CacheEntry) (w : World) :
  table w !! key = Some e → key ≠ "" →
  (∀ k e', k ≠ key → table w !! k = Some e' → LastAccess e < LastAccess e') →
  LastAccess e < clock w (S (reads w)) →
  maxEntries (cache w) ≤ Z.of_nat (size (table w)) →
  table w !! knew = None →
  let w' := exec (Expire key seconds ;;; Set_ knew vnew) w in
  table w' !! key = None ∧
  (∀ k, k ≠ key → k ≠ knew → table w' !! k = table w !! k) ∧
  is_Some (table w' !! knew).
Proof.
  intros Hk Hkey Hmin Hold Hfull Hnew w'. subst w'. rewrite exec_bind.
  set (e1 := with_ExpiresAt (wrap64 (Unix (now w) + seconds)) e).
  assert (exec (Expire key seconds) w = with_data (<[key := e1]> (table w)) (tick w)) as ->.
  { unfold exec. by rewrite (Expire_present _ _ _ _ Hk). }
  set (w1 := with_data (<[key := e1]> (table w)) (tick w)).
  assert (knew ≠ key) as Hne by (intros ->; congruence).
  assert (victim w1 = Some key) as Hv.
  { unfold victim, UnixNano. rewrite (scan_unique_min w1 key e1).
    - by case_decide.
    - apply lookup_insert_eq.
    - done.
    - intros k e' Hk' He'. unfold w1 in He'. rewrite table_with_data in He'.
      rewrite lookup_insert_ne in He' by done. by apply (Hmin k). }
  assert (maxEntries (cache w1) ≤ Z.of_nat (size (table w1))) as Hfull1.
  { unfold w1. wsimpl. by rewrite map_size_insert_Some. }
  assert (table w1 = <[key := e1]> (table w)) as Htab1 by done.
  rewrite Set_table_at_capacity, evictLRU_table, Hv, Htab1 by done.
  split; [|split].
  - rewrite lookup_insert_ne by done. apply lookup_delete_eq.
  - intros k Hk1 Hk2. by rewrite lookup_insert_ne, lookup_delete_ne, lookup_insert_ne.
  - rewrite lookup_insert_eq. by eexists.
Qed.

Lemma Expire_is_not_a_touch_witness :
  let w := exec (sets [("old", Int 1); ("new", Int 2)]) (boot (NewCacheEngine 2) 1000 1000 []) in
  let w' := exec (Expire "old" 3600 ;;; Set_ "extra" (Int 3)) w in
  table w' !! "old" = None ∧ is_Some (table w' !! "extra").
Proof.
  intros w.
  destruct (Expire_is_not_a_touch "old" "extra" 3600 (Int 3) (mkEntry (Int 1) 0 1000) w)
    as (Hgone & _ & Hin).
  - reflexivity.
  - discriminate.
  - intros k e' Hne Hk.
    assert (table w = <["old" := mkEntry (Int 1) 0 1000]> {["new" := mkEntry (Int 2) 0 2000]})
      as Htab by reflexivity.
    rewrite Htab, lookup_insert_ne in Hk by done.
    apply lookup_singleton_Some in Hk as [_ <-]. simpl. lia.
  - vm_compute. reflexivity.
  - vm_compute. discriminate.
  - reflexivity.
  - split; [exact Hgone|exact Hin].
Defined.

(** * Further properties of the persistence layer *)

(** X13.  Records with an operation other than SET, DEL and EXPIRE are passed
    over in silence: a log made of complete records loads without error,
    and leaves the world that the same log without those records
    leaves. *)
Theorem LoadFromLog_skips_unknown_operations (filename : string)
    (recs : list LogEntry) (w : World) :
  let path := if (filename =? "")%string then DefaultLogFile else filename in
  fs w !! path = Some (Readable (map Rec recs)) →
  LoadFromLog filename w =
  (None, exec (seq_ (map applyEntry (filter known_operation recs))) w).
Proof.
  intros path Hfile. unfold LoadFromLog. fold path. rewrite Hfile.
  by rewrite replay_clean_end, applied_known.
Qed.

Lemma LoadFromLog_skips_unknown_operations_witness :
  let recs := [mkLogEntry "SET" "a" (Int 1) 0 0; mkLogEntry "FLUSH" "a" Nil 0 0;
               mkLogEntry "set" "b" (Int 2) 0 0] in
  let w := mkWorld (NewCacheEngine 10) {["cache.log" := Readable (map Rec recs)]}
                   (λ n, 1000 + Z.of_nat n) 0 (λ _, []) 0 in
  eval (LoadFromLog "") w = None ∧
  table (exec (LoadFromLog "") w) = {["a" := mkEntry (Int 1) 0 1000]}.
Proof.
  intros recs w.
  pose proof (LoadFromLog_skips_unknown_operations "" recs w) as Heq.
  unfold eval, exec. rewrite Heq; [|reflexivity]. split; reflexivity.
Defined.

(** X14.  Replay as a computation on values: when the table has room for every
    [SET] record of the log, loading a log of complete records returns no
    error and leaves under each key the value that the records, read in
    order as insertions and deletions, leave there, whatever the clock
    and whatever was in the table. *)
Theorem LoadFromLog_contents (filename : string) (recs : list LogEntry) (w : World) :
  let path := if (filename =? "")%string then DefaultLogFile else filename in
  fs w !! path = Some (Readable (map Rec recs)) →
  Z.of_nat (size (table w) + count_sets recs) ≤ maxEntries (cache w) →
  eval (LoadFromLog filename) w = None ∧
  contents (exec (LoadFromLog filename) w) = foldl replayed (contents w) recs.
Proof.
  intros path Hfile Hroom. unfold eval, exec, LoadFromLog. fold path. rewrite Hfile.
  rewrite replay_clean_end. cbn [fst snd]. split; [done|].
  by apply applied_contents.
Qed.

Lemma LoadFromLog_contents_witness :
  let recs := [mkLogEntry "SET" "a" (Int 1) 0 0; mkLogEntry "SET" "b" (Int 2) 0 0;
               mkLogEntry "DEL" "a" Nil 0 0; mkLogEntry "SET" "b" (Int 3) 0 0] in
  let w := mkWorld (mkEngine {["z" := mkEntry (Str "kept") 0 1]} 4 "")
                   {["cache.log" := Readable (map Rec recs)]}
                   (λ n, 1000 + Z.of_nat n) 0 (λ _, []) 0 in
  eval (LoadFromLog "") w = None ∧
  contents (exec (LoadFromLog "") w) = <["b" := Int 3]> {["z" := Str "kept"]}.
Proof.
  intros recs w.
  destruct (LoadFromLog_contents "" recs w) as [Hret Hc].
  - reflexivity.
  - vm_compute. discriminate.
  - split; [exact Hret|]. rewrite Hc. reflexivity.
Defined.

(** X15.  Replay is idempotent on values: with room for the [SET] records of
    the log twice over, loading the same log a second time returns no
    error and leaves every key with the value it had after the first
    load. *)
Theorem LoadFromLog_twice (filename : string) (recs : list LogEntry) (w : World) :
  let path := if (filename =? "")%string then DefaultLogFile else filename in
  fs w !! path = Some (Readable (map Rec recs)) →
  Z.of_nat (size (table w) + 2 * count_sets recs) ≤ maxEntries (cache w) →
  let w1 := exec (LoadFromLog filename) w in
  eval (LoadFromLog filename) w1 = None ∧
  contents (exec (LoadFromLog filename) w1) = contents w1.
Proof.
  intros path Hfile Hroom w1.
  assert (w1 = exec (seq_ (map applyEntry recs)) w) as Hw1.
  { unfold w1, exec, LoadFromLog. fold path. rewrite Hfile.
    by rewrite replay_clean_end. }
  destruct (applied_contents recs w) as (Hc & Hs & Hmax & _ & Hfs & _); [lia|].
  rewrite <- Hw1 in Hc, Hs, Hmax, Hfs.
  unfold eval, exec, LoadFromLog. fold path. rewrite Hfs, Hfile.
  rewrite replay_clean_end. cbn [fst snd]. split; [done|].
  destruct (applied_contents recs w1) as (Hc' & _); [rewrite Hmax; lia|].
  rewrite Hc', Hc. apply foldl_replayed_twice.
Qed.

Lemma LoadFromLog_twice_witness :
  let recs := [mkLogEntry "SET" "a" (Int 1) 0 0; mkLogEntry "DEL" "a" Nil 0 0;
               mkLogEntry "SET" "b" (Int 2) 0 0] in
  let w := mkWorld (NewCacheEngine 4) {["cache.log" := Readable (map Rec recs)]}
                   (λ n, 1000 + Z.of_nat n) 0 (λ _, []) 0 in
  let w1 := exec (LoadFromLog "") w in
  eval (LoadFromLog "") w1 = None ∧
  contents (exec (LoadFromLog "") w1) = contents w1.
Proof.
  intros recs w.
  apply (LoadFromLog_twice "" recs w).
  - reflexivity.
  - vm_compute. discriminate.
Defined.

(** X16.  [SaveToLog], when it succeeds.  Let the open succeed and leave at the
    path a log of complete records (none, for a file just created), and
    let the host append the record of every entry of the table.  Then
    [SaveToLog] returns no error, leaves the table and the clock as they
    were and the other files alone, and the log holds what it held
    followed by one record for each entry of the table, in the order of
    the second iteration (the first being that of [ExportData]): the
    record [SET] of the key, the value, [ExpiresAt] and, as timestamp,
    [LastAccess], as the host reads it back. *)
Theorem SaveToLog_appends (h : Host) (filename : string) (recs : list LogEntry)
    (back : LogEntry → LogEntry) (w : World) :
  let path := if (filename =? "")%string then DefaultLogFile else filename in
  os_OpenFile h path (fs w !! path) = inr (Readable (map Rec recs)) →
  (∀ k e, table w !! k = Some e →
     appends h path (mkLogEntry "SET" k (Value e) (ExpiresAt e) (LastAccess e))
                    (back (mkLogEntry "SET" k (Value e) (ExpiresAt e) (LastAccess e)))) →
  let w' := exec (SaveToLog h filename) w in
  let items := shuffle (seeds w (S (ranges w))) (map_to_list (table w)) in
  eval (SaveToLog h filename) w = None ∧
  table w' = table w ∧ reads w' = reads w ∧
  (∀ p, p ≠ path → fs w' !! p = fs w !! p) ∧
  items ≡ₚ map_to_list (table w) ∧
  fs w' !! path =
    Some (Readable (map Rec (recs ++
      map (λ item, back (mkLogEntry "SET" item.1 (Value item.2) (ExpiresAt item.2)
                                    (LastAccess item.2))) items))).
Proof.
  intros path Hopen Hok w' items. subst w'. unfold eval, exec.
  rewrite (SaveToLog_opened h filename _ w Hopen). fold path.
  rewrite (writeEntries_appends h path back _ recs).
  - cbn [fst snd]. split; [done|]. split; [done|]. split; [done|]. split; [|split].
    + intros p Hp. cbn [fs with_fs]. by rewrite insert_insert_eq, lookup_insert_ne.
    + apply shuffle_Permutation.
    + cbn [fs with_fs]. rewrite insert_insert_eq. apply lookup_insert_eq.
  - cbn [fs with_fs]. apply lookup_insert_eq.
  - apply Forall_forall. intros [k e] Hin. apply elem_of_save_order in Hin.
    by apply Hok.
Qed.

Lemma SaveToLog_appends_witness :
  let h := host_of inr None in
  let w := mkWorld (mkEngine {["a" := mkEntry (Int 1) 0 1000]} 10 "")
                   {["cache.log" := Readable [Rec (mkLogEntry "SET" "a" (Int 0) 0 5)]]}
                   (λ n, 2000 + Z.of_nat n) 0 (λ _, []) 0 in
  eval (SaveToLog h "") w = None ∧
  fs (exec (SaveToLog h "") w) !! "cache.log"
  = Some (Readable [Rec (mkLogEntry "SET" "a" (Int 0) 0 5);
                    Rec (mkLogEntry "SET" "a" (Int 1) 0 1000)]).
Proof.
  intros h w.
  destruct (SaveToLog_appends h "" [mkLogEntry "SET" "a" (Int 0) 0 5] id w)
    as (Hret & _ & _ & _ & _ & Hlog).
  - reflexivity.
  - intros k e _ recs. reflexivity.
  - split; [exact Hret|]. etrans; [exact Hlog|]. reflexivity.
Defined.

(** X17.  [SaveToLog] stops at the first record that [Encode] refuses.  Let the
    open succeed and leave at the path a log of complete records, let the
    second iteration meet the entries [pre], then [item], and let the host
    append the records of [pre] and answer the record of [item] with an
    error.  Then [SaveToLog] returns that error, wrapped; the table is
    unchanged; the path holds what that last call left of the log in which
    the records of [pre] followed the earlier ones; and nothing was
    asked for the entries after [item]. *)
Theorem SaveToLog_stops_at_first_error (h : Host) (filename : string)
    (recs : list LogEntry) (back : LogEntry → LogEntry) (w : World)
    (pre post : list (string * CacheEntry)) (item : string * CacheEntry)
    (err : string) (file : File) :
  let path := if (filename =? "")%string then DefaultLogFile else filename in
  os_OpenFile h path (fs w !! path) = inr (Readable (map Rec recs)) →
  shuffle (seeds w (S (ranges w))) (map_to_list (table w)) = (pre ++ item :: post)%list →
  (∀ k e, (k, e) ∈ pre →
     appends h path (mkLogEntry "SET" k (Value e) (ExpiresAt e) (LastAccess e))
                    (back (mkLogEntry "SET" k (Value e) (ExpiresAt e) (LastAccess e)))) →
  json_Encode h path
    (Some (Readable (map Rec (recs ++
       map (λ it, back (mkLogEntry "SET" it.1 (Value it.2) (ExpiresAt it.2)
                                   (LastAccess it.2))) pre))))
    (mkLogEntry "SET" item.1 (Value item.2) (ExpiresAt item.2) (LastAccess item.2))
  = (Some err, file) →
  let w' := exec (SaveToLog h filename) w in
  eval (SaveToLog h filename) w = Some ("error al escribir entrada: " +:+ err) ∧
  table w' = table w ∧
  (∀ p, p ≠ path → fs w' !! p = fs w !! p) ∧
  fs w' !! path = Some file.
Proof.
  intros path Hopen Horder Hpre Herr w'. subst w'. unfold eval, exec.
  rewrite (SaveToLog_opened h filename _ w Hopen). fold path.
  change (order (ranged w) = (pre ++ item :: post)%list) in Horder. rewrite Horder.
  rewrite (writeEntries_fails h path back pre item post err file recs).
  - cbn [fst snd]. split; [done|]. split; [done|]. split.
    + intros p Hp. cbn [fs with_fs]. by rewrite insert_insert_eq, lookup_insert_ne.
    + cbn [fs with_fs]. rewrite insert_insert_eq. apply lookup_insert_eq.
  - cbn [fs with_fs]. apply lookup_insert_eq.
  - apply Forall_forall. intros [k e] Hin. by apply Hpre.
  - exact Herr.
Qed.

Lemma SaveToLog_stops_at_first_error_witness :
  let encode := λ r : LogEntry,
    if (Key r =? "b")%string then inl "write cache.log: no space left on device"
    else inr r in
  let h := host_of encode None in
  let w := mkWorld (mkEngine (<["a" := mkEntry (Str "x") 0 1000]>
                               (<["b" := mkEntry (Int 1) 0 1001]>
                                  {["c" := mkEntry (Str "z") 0 1002]})) 10 "")
                   ∅ (λ n, 2000 + Z.of_nat n) 0 (λ _, [1; 1]%nat) 0 in
  eval (SaveToLog h "") w = Some "error al escribir entrada: write cache.log: no space left on device" ∧
  fs (exec (SaveToLog h "") w) !! "cache.log"
  = Some (Readable [Rec (mkLogEntry "SET" "a" (Str "x") 0 1000)]).
Proof.
  intros encode h w.
  destruct (SaveToLog_stops_at_first_error h "" [] id w
              [("a", mkEntry (Str "x") 0 1000)] [("c", mkEntry (Str "z") 0 1002)]
              ("b", mkEntry (Int 1) 0 1001) "write cache.log: no space left on device"
              (Readable [Rec (mkLogEntry "SET" "a" (Str "x") 0 1000)]))
    as (Hret & _ & _ & Hlog).
  - reflexivity.
  - vm_compute. reflexivity.
  - intros k e Hin recs. apply list_elem_of_singleton in Hin as [= -> ->]. reflexivity.
  - reflexivity.
  - split; [exact Hret|exact Hlog].
Defined.

(** X18.  Loading needs a log, and only a save that could open its file makes
    one.  On a path that holds no file [LoadFromLog] returns the error
    "archivo de log no existe" and changes nothing.  If [os.OpenFile]
    then fails on that path (as in a directory that does not exist),
    [SaveToLog] returns its error, wrapped, writes nothing and changes
    nothing, the table being empty or not, and the log is still missing.
    If it succeeds and creates an empty file, and the host appends the
    record of every entry, [SaveToLog] returns no error and [LoadFromLog]
    then finds the file and returns no error. *)
Theorem LoadFromLog_after_first_save (h : Host) (filename : string)
    (back : LogEntry → LogEntry) (w : World) :
  let path := if (filename =? "")%string then DefaultLogFile else filename in
  fs w !! path = None →
  LoadFromLog filename w = (Some ("archivo de log no existe: " +:+ path), w) ∧
  (∀ err, os_OpenFile h path None = inl err →
     SaveToLog h filename w = (Some ("error al abrir archivo de log: " +:+ err), w) ∧
     eval (LoadFromLog filename) (exec (SaveToLog h filename) w)
     = Some ("archivo de log no existe: " +:+ path)) ∧
  (os_OpenFile h path None = inr (Readable []) →
   (∀ k e, table w !! k = Some e →
      appends h path (mkLogEntry "SET" k (Value e) (ExpiresAt e) (LastAccess e))
                     (back (mkLogEntry "SET" k (Value e) (ExpiresAt e) (LastAccess e)))) →
   eval (SaveToLog h filename) w = None ∧
   eval (LoadFromLog filename) (exec (SaveToLog h filename) w) = None).
Proof.
  intros path Hfile.
  assert (LoadFromLog filename w = (Some ("archivo de log no existe: " +:+ path), w))
    as Hmissing.
  { unfold LoadFromLog. fold path. by rewrite Hfile. }
  split; [exact Hmissing|]. split.
  - intros err Hopen. rewrite <- Hfile in Hopen.
    pose proof (SaveToLog_not_opened h filename err w Hopen) as Hsave.
    split; [exact Hsave|]. unfold exec. rewrite Hsave. cbn [snd].
    unfold eval. by rewrite Hmissing.
  - intros Hopen Hok. rewrite <- Hfile in Hopen.
    unfold eval, exec. rewrite (SaveToLog_opened h filename _ w Hopen). fold path.
    rewrite (writeEntries_appends h path back _ []).
    + cbn [fst snd]. split; [done|].
      unfold LoadFromLog. fold path. cbn [fs with_fs].
      rewrite lookup_insert_eq. unfold log_of. by rewrite replay_clean_end.
    + cbn [fs with_fs]. apply lookup_insert_eq.
    + apply Forall_forall. intros [k e] Hin. apply elem_of_save_order in Hin.
      by apply Hok.
Qed.

Lemma LoadFromLog_after_first_save_witness :
  let nodir := mkHost (λ path _, inl ("open " +:+ path +:+ ": no such file or directory"))
                      (λ _ file _, (None, default (Readable []) file))
                      (λ _, inl "") (λ _, inl "") in
  let h := host_of inr None in
  let w := boot (NewCacheEngine 10) 1000 1000 [] in
  LoadFromLog "" w = (Some "archivo de log no existe: cache.log", w) ∧
  SaveToLog nodir "nodir/x.log" w
  = (Some "error al abrir archivo de log: open nodir/x.log: no such file or directory", w) ∧
  eval (SaveToLog h "") w = None ∧
  eval (LoadFromLog "") (exec (SaveToLog h "") w) = None.
Proof.
  intros nodir h w.
  destruct (LoadFromLog_after_first_save h "" id w) as (Hmissing & _ & Hsaved);
    [reflexivity|].
  destruct (LoadFromLog_after_first_save nodir "nodir/x.log" id w) as (_ & Hfail & _);
    [reflexivity|].
  split; [exact Hmissing|]. split.
  - apply (Hfail "open nodir/x.log: no such file or directory"). reflexivity.
  - apply Hsaved; [reflexivity|]. intros k e _ recs. reflexivity.
Defined.

(** X19.  A save and a load.  Let [SaveToLog] open its path with no record in
    it, and let the host append the record of every entry and read it
    back with its operation, key, expiration and timestamp as written
    (what [encoding/json] does when the key is valid UTF-8) and its value
    as [back] says.  Let [LoadFromLog] read the files so written into an
    engine with room for the entries.  Then it returns no error; every key
    of the saved table holds its value as read back; every other key is
    as it was; and an entry whose expiration (seconds) is not above its
    last access (nanoseconds, written as the timestamp), as with a real
    clock, comes back with no expiration.  An expiration comes back only
    when it is positive and the difference of the two is: the entry then
    expires that many seconds after a reading of the clock taken during
    the load. *)
Theorem SaveToLog_then_LoadFromLog (h : Host) (filename : string) (back : any → any)
    (w v : World) :
  let path := if (filename =? "")%string then DefaultLogFile else filename in
  os_OpenFile h path (fs w !! path) = inr (Readable []) →
  (∀ k e, table w !! k = Some e →
     appends h path (mkLogEntry "SET" k (Value e) (ExpiresAt e) (LastAccess e))
                    (mkLogEntry "SET" k (back (Value e)) (ExpiresAt e) (LastAccess e))) →
  fs v = fs (exec (SaveToLog h filename) w) →
  Z.of_nat (size (table v)) + Z.of_nat (size (table w)) ≤ maxEntries (cache v) →
  let v' := exec (LoadFromLog filename) v in
  eval (LoadFromLog filename) v = None ∧
  (∀ k, table w !! k = None → table v' !! k = table v !! k) ∧
  (∀ k e, table w !! k = Some e →
     ∃ e', table v' !! k = Some e' ∧ Value e' = back (Value e) ∧
           (ExpiresAt e ≤ LastAccess e → LastAccess e ≤ max_int64 → ExpiresAt e' = 0) ∧
           (0 < ExpiresAt e → 0 < wrap64 (ExpiresAt e - LastAccess e) →
            ∃ n, (reads v < n)%nat ∧
                 ExpiresAt e' = wrap64 (clock v n `div` 1000000000
                                        + wrap64 (ExpiresAt e - LastAccess e)))).
Proof.
  intros path Hopen Hok Hfs Hroom v'.
  set (items := order (ranged w)).
  set (read_back := λ r : LogEntry,
         mkLogEntry "SET" (Key r) (back (LogValue r)) (LogExpiresAt r) (Timestamp r)).
  assert (fs v !! path = Some (log_of (map (λ item, read_back (logged item)) items)))
    as Hlog.
  { rewrite Hfs. unfold exec.
    rewrite (SaveToLog_opened h filename _ w Hopen). fold path.
    rewrite (writeEntries_appends h path read_back _ []).
    - cbn [snd fs with_fs]. by rewrite lookup_insert_eq.
    - cbn [fs with_fs]. apply lookup_insert_eq.
    - apply Forall_forall. intros [k e] Hin. apply elem_of_save_order in Hin.
      by apply Hok. }
  set (retag := λ item : string * CacheEntry,
         (item.1, with_Value (back (Value item.2)) item.2)).
  assert (LoadFromLog filename v =
          (None, exec (seq_ (map restoreEntry (map retag items))) v)) as Hload.
  { unfold LoadFromLog. fold path. rewrite Hlog. unfold log_of.
    rewrite replay_clean_end. by rewrite !map_map. }
  assert (items ≡ₚ map_to_list (table w)) as Hperm by apply shuffle_Permutation.
  assert ((map retag items).*1 = items.*1) as Hkeys.
  { by rewrite <- list_fmap_compose. }
  unfold v', eval, exec. rewrite Hload. cbn [fst snd]. split; [done|].
  destruct (restored (map retag items) v) as (Hother & Hin & _).
  - rewrite Hkeys, Hperm. apply NoDup_fst_map_to_list.
  - rewrite length_map, Hperm, length_map_to_list. done.
  - split.
    + intros k Hk. apply Hother. rewrite Hkeys.
      intros [[k' e] [-> Hin']]%list_elem_of_fmap.
      apply elem_of_save_order in Hin'. simpl in Hk. congruence.
    + intros k e Hk.
      destruct (Hin k (with_Value (back (Value e)) e)) as (e' & n & He' & Hval & Hn & Hexp).
      { apply list_elem_of_fmap. exists (k, e). split; [done|].
        by apply elem_of_save_order. }
      exists e'. split; [done|]. split; [done|]. split.
      * intros Hle Hfit. rewrite Hexp. by apply restored_expiry_stale.
      * intros Hpos Hleft. exists n. split; [done|]. rewrite Hexp.
        by apply (restored_expiry_left (with_Value (back (Value e)) e)).
Qed.

Lemma SaveToLog_then_LoadFromLog_witness :
  let h := host_of inr None in
  let e := mkEntry (Str "v") 1700000060 1700000000000000000 in
  let w := mkWorld (mkEngine {["session" := e]} 10 "") ∅
                   (λ n, 1700000001000000000 + Z.of_nat n) 0 (λ _, []) 0 in
  let v := mkWorld (NewCacheEngine 10) (fs (exec (SaveToLog h "") w))
                   (λ n, 1700000002000000000 + Z.of_nat n) 0 (λ _, []) 0 in
  eval (LoadFromLog "") v = None ∧
  ∃ e', table (exec (LoadFromLog "") v) !! "session" = Some e' ∧
        Value e' = Str "v" ∧ ExpiresAt e' = 0.
Proof.
  intros h e w v.
  destruct (SaveToLog_then_LoadFromLog h "" id w v) as (Hret & _ & Hback).
  - reflexivity.
  - intros k e0 _ recs. reflexivity.
  - reflexivity.
  - vm_compute. discriminate.
  - split; [exact Hret|].
    destruct (Hback "session" e) as (e' & He' & Hval & Hexp); [reflexivity|].
    exists e'. split; [exact He'|]. split; [exact Hval|].
    apply Hexp; vm_compute; discriminate.
Defined.

(** X20.  [LoadSnapshot].  When the file cannot be read, or cannot be decoded,
    it returns the error, wrapped, and changes nothing; the file read is
    [cache_snapshot.json] when no name is given.  When the snapshot
    decoded has an entry for each of its keys, and the engine has room
    for them, it returns no error, in whatever order it walks the
    snapshot: every key of the snapshot holds its value, every other key
    is as it was, and an entry whose expiration is not above its last
    access comes back with no expiration.  An expiration comes back only
    when it is positive and exceeds the last access: the entry then
    expires that many seconds after a reading of the clock taken during
    the load. *)
Theorem LoadSnapshot_restores (h : Host) (filename : string) (v : World) :
  let path := if (filename =? "")%string then "cache_snapshot.json" else filename in
  (∀ err, os_ReadFile h path = inl err →
     LoadSnapshot h filename v = (Returned (Some ("error al leer snapshot: " +:+ err)), v)) ∧
  (∀ data err, os_ReadFile h path = inr data → json_Unmarshal h data = inl err →
     LoadSnapshot h filename v
     = (Returned (Some ("error al deserializar snapshot: " +:+ err)), v)) ∧
  (∀ data snapshot, os_ReadFile h path = inr data → json_Unmarshal h data = inr snapshot →
     (∀ k, snapshot !! k ≠ Some None) →
     Z.of_nat (size (table v)) + Z.of_nat (size snapshot) ≤ maxEntries (cache v) →
     let v' := exec (LoadSnapshot h filename) v in
     eval (LoadSnapshot h filename) v = Returned None ∧
     (∀ k, snapshot !! k = None → table v' !! k = table v !! k) ∧
     (∀ k e, snapshot !! k = Some (Some e) →
        ∃ e', table v' !! k = Some e' ∧ Value e' = Value e ∧
              (ExpiresAt e ≤ LastAccess e → LastAccess e ≤ max_int64 → ExpiresAt e' = 0) ∧
              (0 < ExpiresAt e → 0 < wrap64 (ExpiresAt e - LastAccess e) →
               ∃ n, (reads v < n)%nat ∧
                    ExpiresAt e' = wrap64 (clock v n `div` 1000000000
                                           + wrap64 (ExpiresAt e - LastAccess e))))).
Proof.
  intros path. split; [|split].
  - intros err Hread. unfold LoadSnapshot. fold path. by rewrite Hread.
  - intros data err Hread Hjson. unfold LoadSnapshot. fold path. by rewrite Hread, Hjson.
  - intros data snapshot Hread Hjson Hall Hroom v'.
    set (items := shuffle (seeds v (ranges v)) (map_to_list snapshot)).
    assert (items ≡ₚ map_to_list snapshot) as Hperm by apply shuffle_Permutation.
    destruct (all_present items) as [items' Hitems].
    { intros k Hin. rewrite Hperm in Hin. apply elem_of_map_to_list in Hin.
      by apply (Hall k). }
    assert (LoadSnapshot h filename v
            = (Returned None, exec (seq_ (map restoreEntry items')) (ranged v))) as Hload.
    { unfold LoadSnapshot. fold path. rewrite Hread, Hjson.
      unfold bind, range_map. fold items. rewrite Hitems.
      apply restoreEntries_present. }
    assert (items.*1 = items'.*1) as Hkeys.
    { rewrite Hitems. by rewrite <- list_fmap_compose. }
    unfold v', eval, exec. rewrite Hload. cbn [fst snd]. split; [done|].
    destruct (restored items' (ranged v)) as (Hother & Hin & _).
    + rewrite <- Hkeys, Hperm. apply NoDup_fst_map_to_list.
    + assert (length items' = length items) as -> by by rewrite Hitems, length_map.
      rewrite Hperm, length_map_to_list. done.
    + split.
      * intros k Hk. rewrite Hother; [done|].
        intros [[k' e] [-> Hin']]%list_elem_of_fmap.
        assert ((k', Some e) ∈ items) as Hin''.
        { rewrite Hitems. apply list_elem_of_fmap. by exists (k', e). }
        rewrite Hperm in Hin''. apply elem_of_map_to_list in Hin''.
        simpl in Hk. congruence.
      * intros k e Hk.
        assert ((k, Some e) ∈ items) as Hin'.
        { rewrite Hperm. by apply elem_of_map_to_list. }
        rewrite Hitems in Hin'.
        apply list_elem_of_fmap in Hin' as [[k' e'] [[= -> ->] Hin']].
        destruct (Hin k' e' Hin') as (e1 & n & He1 & Hval & Hn & Hexp).
        exists e1. split; [done|]. split; [done|]. split.
        -- intros Hle Hfit. rewrite Hexp. by apply restored_expiry_stale.
        -- intros Hpos Hleft. exists n. split; [done|]. rewrite Hexp.
           by apply restored_expiry_left.
Qed.

Lemma LoadSnapshot_restores_witness :
  let snapshot : gmap string (option CacheEntry) :=
    <["a" := Some (mkEntry (Str "x") 1700000060 1700000000000000000)]>
      {["b" := Some (mkEntry (Str "y") 0 1700000000000000500)]} in
  let v := boot (NewCacheEngine 2) 1700000001000000000 1000 [1%nat] in
  LoadSnapshot (host_of inr None) "" v
  = (Returned (Some "error al leer snapshot: open cache_snapshot.json: no such file or directory"),
     v) ∧
  eval (LoadSnapshot (host_of inr (Some snapshot)) "") v = Returned None ∧
  ∃ e', table (exec (LoadSnapshot (host_of inr (Some snapshot)) "") v) !! "a" = Some e' ∧
        Value e' = Str "x" ∧ ExpiresAt e' = 0.
Proof.
  intros snapshot v.
  destruct (LoadSnapshot_restores (host_of inr None) "" v) as (Hfail & _ & _).
  destruct (LoadSnapshot_restores (host_of inr (Some snapshot)) "" v) as (_ & _ & Hok).
  split.
  - apply (Hfail "open cache_snapshot.json: no such file or directory"). reflexivity.
  - destruct (Hok "cache_snapshot.json" snapshot) as (Hret & _ & Hback).
    + reflexivity.
    + reflexivity.
    + intros k Hk. unfold snapshot in Hk.
      apply lookup_insert_Some in Hk as [[_ [=]]|[_ Hk]].
      apply lookup_singleton_Some in Hk as [_ [=]].
    + vm_compute. discriminate.
    + split; [exact Hret|].
      destruct (Hback "a" (mkEntry (Str "x") 1700000060 1700000000000000000))
        as (e' & He' & Hval & Hexp); [reflexivity|].
      exists e'. split; [exact He'|]. split; [exact Hval|].
      apply Hexp; vm_compute; discriminate.
Defined.

(** X21.  [LoadSnapshot] on a snapshot in which a key maps to [null].  The
    loop reads [entry.Value] of a nil entry: the call panics, in whatever
    order it walks the snapshot, and returns neither an error nor [nil].
    The entries it met before the nil one have been restored by then, the
    others have not. *)
Theorem LoadSnapshot_null_entry_panics (h : Host) (filename data : string)
    (snapshot : gmap string (option CacheEntry)) (v : World) :
  let path := if (filename =? "")%string then "cache_snapshot.json" else filename in
  os_ReadFile h path = inr data → json_Unmarshal h data = inr snapshot →
  (∀ k, snapshot !! k = Some None → eval (LoadSnapshot h filename) v = Panicked) ∧
  (∀ pre k post,
     shuffle (seeds v (ranges v)) (map_to_list snapshot)
     = (map (λ item : string * CacheEntry, (item.1, Some item.2)) pre
        ++ (k, None) :: post)%list →
     LoadSnapshot h filename v
     = (Panicked, exec (seq_ (map restoreEntry pre)) (ranged v))).
Proof.
  intros path Hread Hjson.
  assert (LoadSnapshot h filename v
          = restoreEntries (shuffle (seeds v (ranges v)) (map_to_list snapshot)) (ranged v))
    as Hload.
  { unfold LoadSnapshot. fold path. by rewrite Hread, Hjson. }
  split.
  - intros k Hk. unfold eval. rewrite Hload. apply (restoreEntries_panics _ k).
    rewrite shuffle_Permutation. by apply elem_of_map_to_list.
  - intros pre k post Horder. rewrite Hload, Horder. apply restoreEntries_nil_entry.
Qed.

Lemma LoadSnapshot_null_entry_panics_witness :
  let snapshot : gmap string (option CacheEntry) :=
    <["a" := Some (mkEntry (Str "x") 0 1700000000000000000)]> {["b" := None]} in
  let h := host_of inr (Some snapshot) in
  let v := boot (NewCacheEngine 2) 1700000001000000000 1000 [] in
  eval (LoadSnapshot h "") v = Panicked ∧
  table (exec (LoadSnapshot h "") v) = {["a" := mkEntry (Str "x") 0 1700000001000000000]}.
Proof.
  intros snapshot h v.
  destruct (LoadSnapshot_null_entry_panics h "" "cache_snapshot.json" snapshot v)
    as [Hpanic Hstate]; [reflexivity|reflexivity|].
  split.
  - apply (Hpanic "b"). reflexivity.
  - unfold exec.
    rewrite (Hstate [("a", mkEntry (Str "x") 0 1700000000000000000)] "b" []).
    + reflexivity.
    + vm_compute. reflexivity.
Defined.
